(** * Track analysis of the location tracker: haversine distance,
      stationary-segment detection and the workout statistics fold.

    The development embeds [utils/haversine.ts] and the statistics part of
    [WorkoutComplete.tsx].  A JavaScript [number] is read in exact
    arithmetic, as a real number of the Standard Library; integer-valued
    quantities produced by [Math.floor] are kept in [Z].  Exact arithmetic
    has no [Infinity] and no [NaN], so a division whose divisor is not a
    literal goes through [fdiv], which records a zero divisor as a fault
    instead of producing a value. *)

From Stdlib Require Import Reals Lra Lia ZArith List String Bool.
Import ListNotations.

Local Open Scope R_scope.

(** ** Outcomes of a computation *)

Inductive fault : Type :=
| DivisionByZero
| UndefinedAccess.

Inductive res (A : Type) : Type :=
| Ok (a : A)
| Fault (f : fault).

Arguments Ok {A} a.
Arguments Fault {A} f.

Definition bind {A B : Type} (c : res A) (k : A -> res B) : res B :=
  match c with
  | Ok a => k a
  | Fault f => Fault f
  end.

Notation "x <- c ;; k" := (bind c (fun x => k))
  (at level 61, c at next level, right associativity).

(** ** Numbers *)

Module Num.

(** [x / y] for a divisor that is not a literal. *)
Definition fdiv (x y : R) : res R :=
  if Req_dec_T y 0 then Fault DivisionByZero else Ok (x / y).

(** Comparisons, as the booleans the source branches on. *)
Definition ltb (x y : R) : bool := if Rlt_dec x y then true else false.
Definition geb (x y : R) : bool := if Rge_dec x y then true else false.
Definition gtb (x y : R) : bool := if Rgt_dec x y then true else false.

(** [Math.floor]. *)
Definition floor (x : R) : Z := Int_part x.

(** Rounding towards zero, the quotient that [%] uses. *)
Definition trunc (x : R) : Z :=
  if Rle_dec 0 x then Int_part x else (- Int_part (- x))%Z.

(** [x % y] of JavaScript: the result has the sign of the dividend. *)
Definition rem (x y : R) : R := x - y * IZR (trunc (x / y)).

(** [Math.atan2 (y, x)] on finite arguments. *)
Definition atan2 (y x : R) : R :=
  if Rlt_dec 0 x then atan (y / x)
  else if Rlt_dec x 0 then
    (if Rle_dec 0 y then atan (y / x) + PI else atan (y / x) - PI)
  else if Rlt_dec 0 y then PI / 2
  else if Rlt_dec y 0 then - (PI / 2)
  else 0.

End Num.

(** ** utils/haversine.ts *)

Definition EARTH_RADIUS : R := 6371000.

Definition toRadians (deg : R) : R := (deg * PI) / 180.

(** The quantity [a] of [haversine], whose square roots are taken. *)
Definition haversine_a (lat1 lon1 lat2 lon2 : R) : R :=
  let phi1 := toRadians lat1 in
  let phi2 := toRadians lat2 in
  let dphi := toRadians (lat2 - lat1) in
  let dlam := toRadians (lon2 - lon1) in
  sin (dphi / 2) * sin (dphi / 2) +
  cos phi1 * cos phi2 * sin (dlam / 2) * sin (dlam / 2).

(** The arithmetic is exact.  For latitudes in range [a] is at most 1
    here; in binary64 it can round above 1 when the two points are nearly
    antipodal, and [Math.sqrt (1 - a)] is then NaN.  The properties that rest
    on the range of [a] are stated for points at most 90 degrees apart
    ([nearby] below), where [a] is at most 3/4. *)
Definition haversine (lat1 lon1 lat2 lon2 : R) : R :=
  let a := haversine_a lat1 lon1 lat2 lon2 in
  let c := 2 * Num.atan2 (sqrt a) (sqrt (1 - a)) in
  EARTH_RADIUS * c.

(** ** WorkoutComplete.tsx: types *)

Record LngLatTimestamp : Type := mkPoint {
  latitude : R;
  longitude : R;
  timestamp : R
}.

Record Split : Type := mkSplit {
  km : Z;
  durationSec : R
}.

(** Coordinates a location sensor can report. *)
Definition validPoint (p : LngLatTimestamp) : Prop :=
  -90 <= latitude p <= 90 /\ -180 <= longitude p <= 180.

(** ** isStationary *)

Definition isStationary (segmentDist timeDeltaSec speedThreshold pauseThresholdSec : R)
  : res bool :=
  if Num.geb timeDeltaSec pauseThresholdSec then
    speed <- Num.fdiv segmentDist timeDeltaSec ;;
    Ok (Num.ltb speed speedThreshold)
  else Ok false.

(** The call [isStationary(d, t)], with the default thresholds. *)
Definition isStationary_default (segmentDist timeDeltaSec : R) : res bool :=
  isStationary segmentDist timeDeltaSec (3 / 10) 5.

(** ** calculateStats: the accumulator of the loop *)

Record Acc : Type := mkAcc {
  cumDist : R;
  lastSplitKm : Z;
  splitStartTime : R;
  accruedMovingTime : R;
  accruedPausedTime : R;
  pauseCount : nat;
  splitsArr : list Split
}.

(** The values of the [let]s before the loop; [first] is [path[0]]. *)
Definition initAcc (first : LngLatTimestamp) : Acc :=
  {| cumDist := 0;
     lastSplitKm := 0;
     splitStartTime := timestamp first;
     accruedMovingTime := 0;
     accruedPausedTime := 0;
     pauseCount := 0;
     splitsArr := [] |}.

Definition segmentDist (prev curr : LngLatTimestamp) : R :=
  haversine (latitude prev) (longitude prev) (latitude curr) (longitude curr).

Definition segmentDeltaT (prev curr : LngLatTimestamp) : R :=
  (timestamp curr - timestamp prev) / 1000.

(** The [if (paused)] branch. *)
Definition pausedBranch (deltaT : R) (s : Acc) : Acc :=
  {| cumDist := cumDist s;
     lastSplitKm := lastSplitKm s;
     splitStartTime := splitStartTime s;
     accruedMovingTime := accruedMovingTime s;
     accruedPausedTime := accruedPausedTime s + deltaT;
     pauseCount := S (pauseCount s);
     splitsArr := splitsArr s |}.

(** The [else] branch. *)
Definition movingBranch (curr : LngLatTimestamp) (dist deltaT : R) (s : Acc)
  : res Acc :=
  let cumDist' := cumDist s + dist in
  let accruedMovingTime' := accruedMovingTime s + deltaT in
  let kmNow := Num.floor (cumDist' / 1000) in
  if (kmNow >? lastSplitKm s)%Z then
    let splitDur := (timestamp curr - splitStartTime s) / 1000 in
    let pushed :=
      splitsArr s ++ [ {| km := lastSplitKm s + 1; durationSec := splitDur |} ] in
    let overshootMeters := Num.rem cumDist' 1000 in
    fracOfSegment <- Num.fdiv overshootMeters dist ;;
    Ok {| cumDist := cumDist';
          lastSplitKm := kmNow;
          splitStartTime := timestamp curr - fracOfSegment * deltaT * 1000;
          accruedMovingTime := accruedMovingTime';
          accruedPausedTime := accruedPausedTime s;
          pauseCount := pauseCount s;
          splitsArr := pushed |}
  else
    Ok {| cumDist := cumDist';
          lastSplitKm := lastSplitKm s;
          splitStartTime := splitStartTime s;
          accruedMovingTime := accruedMovingTime';
          accruedPausedTime := accruedPausedTime s;
          pauseCount := pauseCount s;
          splitsArr := splitsArr s |}.

(** One iteration of the loop, on [prev = path[i - 1]] and [curr = path[i]]. *)
Definition segment (prev curr : LngLatTimestamp) (s : Acc) : res Acc :=
  let dist := segmentDist prev curr in
  let deltaT := segmentDeltaT prev curr in
  paused <- isStationary_default dist deltaT ;;
  if paused then Ok (pausedBranch deltaT s)
  else movingBranch curr dist deltaT s.

(** The iterations from [prev] on, over the points that follow it. *)
Fixpoint segments (prev : LngLatTimestamp) (rest : list LngLatTimestamp)
  (s : Acc) : res Acc :=
  match rest with
  | [] => Ok s
  | curr :: rest' => s' <- segment prev curr s ;; segments curr rest' s'
  end.

(** The loop of [calculateStats] with its initialisation; reading
    [path[0]] of an empty array is an access on [undefined]. *)
Definition foldPath (path : list LngLatTimestamp) : res Acc :=
  match path with
  | [] => Fault UndefinedAccess
  | first :: rest => segments first rest (initAcc first)
  end.

(** A property of every segment of a path: of [prev] with the first point
    of [rest], and of each point of [rest] with the next. *)
Fixpoint allSegments (P : LngLatTimestamp -> LngLatTimestamp -> Prop)
  (prev : LngLatTimestamp) (rest : list LngLatTimestamp) : Prop :=
  match rest with
  | [] => True
  | curr :: rest' => P prev curr /\ allSegments P curr rest'
  end.

(** The loop again, by index as the source writes it. *)
Definition iteration (path : list LngLatTimestamp) (i : nat) (s : Acc) : res Acc :=
  match nth_error path (i - 1), nth_error path i with
  | Some prev, Some curr => segment prev curr s
  | _, _ => Fault UndefinedAccess
  end.

Definition forLoop (path : list LngLatTimestamp) (s : Acc) : res Acc :=
  fold_left (fun r i => s' <- r ;; iteration path i s')
            (seq 1 (List.length path - 1)) (Ok s).

(** ** The component: state, effect on mount, content *)

Record WorkoutState : Type := mkState {
  distance : R;
  movingTime : R;
  totalTime : R;
  averageSpeed : R;
  pausedSections : nat;
  splits : list Split;
  ready : bool
}.

(** The initial values given to [useState]. *)
Definition initialState : WorkoutState :=
  {| distance := 0; movingTime := 0; totalTime := 0; averageSpeed := 0;
     pausedSections := 0; splits := []; ready := false |}.

(** The state written by the setters at the end of [calculateStats]. *)
Definition setState (path : list LngLatTimestamp) (first : LngLatTimestamp)
  (s : Acc) : res WorkoutState :=
  let totalElapsedSec := (timestamp (last path first) - timestamp first) / 1000 in
  avg <- (if Num.gtb (accruedMovingTime s) 0
          then Num.fdiv (cumDist s) (accruedMovingTime s)
          else Ok 0) ;;
  Ok {| distance := cumDist s;
        movingTime := accruedMovingTime s;
        totalTime := totalElapsedSec;
        averageSpeed := avg;
        pausedSections := pauseCount s;
        splits := splitsArr s;
        ready := true |}.

Definition calculateStats (path : list LngLatTimestamp) : res WorkoutState :=
  match path with
  | [] => Fault UndefinedAccess
  | first :: _ => s <- foldPath path ;; setState path first s
  end.

Record Summary : Type := mkSummary {
  path : option (list LngLatTimestamp)
}.

Inductive alert : Type :=
| Alert (title message : string).

(** The callback of [useEffect]: the state it leaves and the alerts it shows. *)
Definition onMount (summary : Summary) (st : WorkoutState)
  : res (WorkoutState * list alert) :=
  match path summary with
  | None => Ok (st, [Alert "Error"%string "Insufficient path data provided."%string])
  | Some p =>
      if (List.length p <? 2)%nat
      then Ok (st, [Alert "Error"%string "Insufficient path data provided."%string])
      else st' <- calculateStats p ;; Ok (st', [])
  end.

(** What the screen shows: the header content and the rows of the list,
    with the numbers before they are formatted. *)
Inductive content : Type :=
| ActivityIndicator
| Figures (distKm elapsedMin movingMin avgKmh : R) (pauses : nat).

Definition renderContent (st : WorkoutState) : content :=
  if negb (ready st) then ActivityIndicator
  else Figures (distance st / 1000) (totalTime st / 60) (movingTime st / 60)
               (averageSpeed st * 3.6) (pausedSections st).

Definition listRows (st : WorkoutState) : list (Z * R) :=
  map (fun item => (km item, durationSec item / 60)) (splits st).

(** ** WorkoutComplete.tsx: the label under the figures *)

(** Whether the content shows the line "No full kilometers completed.":
    not while the activity indicator is shown, and then only when there is
    no split. *)
Definition noSplitsLabel (st : WorkoutState) : bool :=
  if negb (ready st) then false
  else (List.length (splits st) =? 0)%nat.

(** ** MapScreen.tsx, the screen that records coordinates only *)

Module RouteScreen.

(** The type [LngLat]; its fields are [latitude] and [longitude] in the
    source, names that [LngLatTimestamp] has taken here. *)
Record LngLat : Type := mkLngLat {
  lat : R;
  lng : R
}.

Definition toRad (deg : R) : R := (deg * PI) / 180.

(** The constant [R] of [calculateDistance]. *)
Definition R_earth : R := 6371e3.

(** What one iteration of the loop adds to [distance]. *)
Definition segmentMeters (prev curr : LngLat) : R :=
  let dLat := toRad (lat curr - lat prev) in
  let dLon := toRad (lng curr - lng prev) in
  let a :=
    sin (dLat / 2) ^ 2 +
    cos (toRad (lat prev)) * cos (toRad (lat curr)) * sin (dLon / 2) ^ 2 in
  let c := 2 * Num.atan2 (sqrt a) (sqrt (1 - a)) in
  R_earth * c.

(** The loop from [prev = coords[i - 1]] on. *)
Fixpoint distanceFrom (prev : LngLat) (rest : list LngLat) (distance : R) : R :=
  match rest with
  | [] => distance
  | curr :: rest' => distanceFrom curr rest' (distance + segmentMeters prev curr)
  end.

Definition calculateDistance (coords : list LngLat) : R :=
  match coords with
  | [] => 0
  | first :: rest => distanceFrom first rest 0
  end.

(** A route that keeps to one meridian and never turns south. *)
Fixpoint northwards (prev : LngLat) (rest : list LngLat) : Prop :=
  match rest with
  | [] => True
  | curr :: rest' =>
      lng curr = lng prev /\ lat prev <= lat curr /\ northwards curr rest'
  end.

End RouteScreen.

(** ** MapScreen.tsx, the screen that records timestamped points *)

Module MapScreen.

(** A map region; [centerLatitude] and [centerLongitude] are its fields
    [latitude] and [longitude]. *)
Record Region : Type := mkRegion {
  centerLatitude : R;
  centerLongitude : R;
  latitudeDelta : R;
  longitudeDelta : R
}.

Definition INITIAL_REGION : Region :=
  {| centerLatitude := 51.4; centerLongitude := -0.3;
     latitudeDelta := 0.01; longitudeDelta := 0.01 |}.

(** What the callback reads of a [GeoPosition]: [coords.latitude],
    [coords.longitude] and [timestamp], which may be missing. *)
Record GeoPosition : Type := mkPosition {
  coordsLatitude : R;
  coordsLongitude : R;
  positionTimestamp : option R
}.

Inductive platform : Type :=
| Android
| OtherOS.

Inductive permission : Type :=
| ANDROID_ACCESS_FINE_LOCATION
| IOS_LOCATION_WHEN_IN_USE.

Inductive permissionStatus : Type :=
| GRANTED
| NotGranted.

(** What a handler asks of the libraries around the screen. *)
Inductive effect : Type :=
| ShowAlert (title : string) (message : option string) (buttons : list string)
| RequestAuthorization (level : string)
| WatchPosition (watch : nat)
| ClearWatch (watch : nat)
| AnimateToRegion (target : Region) (duration : R)
| Navigate (screen : string) (summary : Summary).

(** The state of the component: the three [useState] values and the ref
    [watchId]. *)
Record Screen : Type := mkScreen {
  region : Region;
  route : list LngLatTimestamp;
  tracking : bool;
  watchId : option nat
}.

Definition initialScreen : Screen :=
  {| region := INITIAL_REGION; route := []; tracking := false; watchId := None |}.

(** [request] stands for the answer of the permission library. *)
Definition requestPermission (os : platform)
  (request : permission -> permissionStatus) : bool :=
  match os with
  | Android =>
      match request ANDROID_ACCESS_FINE_LOCATION with
      | GRANTED => true
      | NotGranted => false
      end
  | OtherOS =>
      match request IOS_LOCATION_WHEN_IN_USE with
      | GRANTED => true
      | NotGranted => false
      end
  end.

Definition stopTracking (s : Screen) : Screen * list effect :=
  match watchId s with
  | Some id =>
      ({| region := region s; route := route s; tracking := false;
          watchId := None |},
       [ClearWatch id])
  | None =>
      ({| region := region s; route := route s; tracking := false;
          watchId := watchId s |},
       [])
  end.

(** [id] is the value that [Geolocation.watchPosition] returns. *)
Definition startTracking (os : platform)
  (request : permission -> permissionStatus) (id : nat) (s : Screen)
  : Screen * list effect :=
  let ok := requestPermission os request in
  if negb ok then
    (s, [ShowAlert "Permission required"%string
                   (Some "Enable location in Settings."%string)
                   ["Cancel"%string; "Open Settings"%string]])
  else
    ({| region := region s; route := []; tracking := true; watchId := Some id |},
     [RequestAuthorization "whenInUse"%string; WatchPosition id]).

(** The success callback of the watch.  [captured] is the [region] of the
    render that created the callback, [mapReady] says whether
    [mapRef.current] is set, [now] is [Date.now()]. *)
Definition onPosition (captured : Region) (mapReady : bool) (now : R)
  (pos : GeoPosition) (s : Screen) : Screen * list effect :=
  let t := match positionTimestamp pos with Some t => t | None => now end in
  let point := mkPoint (coordsLatitude pos) (coordsLongitude pos) t in
  let newRegion :=
    {| centerLatitude := coordsLatitude pos;
       centerLongitude := coordsLongitude pos;
       latitudeDelta := latitudeDelta captured;
       longitudeDelta := longitudeDelta captured |} in
  ({| region := newRegion; route := route s ++ [point];
      tracking := tracking s; watchId := watchId s |},
   if mapReady then [AnimateToRegion newRegion 500] else []).

(** The error callback of the watch. *)
Definition onLocationError (message : string) (s : Screen) : Screen * list effect :=
  let (s', fx) := stopTracking s in
  (s', ShowAlert "Location error"%string (Some message) [] :: fx).

Definition finishTracking (s : Screen) : Screen * list effect :=
  let (s', fx) := stopTracking s in
  if (List.length (route s) <? 2)%nat then
    (s', fx ++ [ShowAlert "Not enough data for route"%string None []])
  else
    (s', fx ++ [Navigate "WorkoutComplete"%string {| path := Some (route s) |}]).

(** The start marker: at [route[0]] when the route is not empty. *)
Definition startMarker (s : Screen) : option (R * R) :=
  match route s with
  | [] => None
  | first :: _ => Some (latitude first, longitude first)
  end.

(** The coordinates given to the polyline. *)
Definition polyline (s : Screen) : list (R * R) :=
  map (fun p => (latitude p, longitude p)) (route s).

Definition buttonTitle (s : Screen) : string :=
  if negb (tracking s) then "Start"%string else "Stop & Review"%string.

(** The screen after the positions [ps] have come in, in order; each comes
    with the [Date.now()] of its callback. *)
Fixpoint onPositions (captured : Region) (mapReady : bool)
  (ps : list (R * GeoPosition)) (s : Screen) : Screen :=
  match ps with
  | [] => s
  | (now, pos) :: ps' =>
      onPositions captured mapReady ps'
        (fst (onPosition captured mapReady now pos s))
  end.

(** The point that a position is recorded as. *)
Definition recorded (np : R * GeoPosition) : LngLatTimestamp :=
  mkPoint (coordsLatitude (snd np)) (coordsLongitude (snd np))
          (match positionTimestamp (snd np) with
           | Some t => t
           | None => fst np
           end).

End MapScreen.

(** ** Predicates on the accumulator and on the splits *)

(** What the loop maintains between [cumDist] and [lastSplitKm]. *)
Definition kmInv (s : Acc) : Prop :=
  lastSplitKm s = Num.floor (cumDist s / 1000).

(** The three ways an iteration can go. *)
Inductive step (prev curr : LngLatTimestamp) (s s' : Acc) : Prop :=
| step_paused :
    isStationary_default (segmentDist prev curr) (segmentDeltaT prev curr) = Ok true ->
    s' = pausedBranch (segmentDeltaT prev curr) s ->
    step prev curr s s'
| step_stay :
    isStationary_default (segmentDist prev curr) (segmentDeltaT prev curr) = Ok false ->
    (Num.floor ((cumDist s + segmentDist prev curr) / 1000) <= lastSplitKm s)%Z ->
    movingBranch curr (segmentDist prev curr) (segmentDeltaT prev curr) s = Ok s' ->
    cumDist s' = cumDist s + segmentDist prev curr ->
    lastSplitKm s' = lastSplitKm s ->
    splitsArr s' = splitsArr s ->
    accruedMovingTime s' = accruedMovingTime s + segmentDeltaT prev curr ->
    accruedPausedTime s' = accruedPausedTime s ->
    pauseCount s' = pauseCount s ->
    step prev curr s s'
| step_cross :
    isStationary_default (segmentDist prev curr) (segmentDeltaT prev curr) = Ok false ->
    (lastSplitKm s < Num.floor ((cumDist s + segmentDist prev curr) / 1000))%Z ->
    0 < segmentDist prev curr ->
    movingBranch curr (segmentDist prev curr) (segmentDeltaT prev curr) s = Ok s' ->
    cumDist s' = cumDist s + segmentDist prev curr ->
    lastSplitKm s' = Num.floor ((cumDist s + segmentDist prev curr) / 1000) ->
    splitsArr s'
    = splitsArr s
      ++ [ {| km := lastSplitKm s + 1;
              durationSec := (timestamp curr - splitStartTime s) / 1000 |} ] ->
    accruedMovingTime s' = accruedMovingTime s + segmentDeltaT prev curr ->
    accruedPausedTime s' = accruedPausedTime s ->
    pauseCount s' = pauseCount s ->
    step prev curr s s'.

(** The time credited so far, against the timestamps. *)
Definition timeInv (first prev : LngLatTimestamp) (s : Acc) : Prop :=
  accruedMovingTime s + accruedPausedTime s
  = (timestamp prev - timestamp first) / 1000.

(** Strictly ascending, above [lo]. *)
Fixpoint ascending (lo : Z) (l : list Z) : Prop :=
  match l with
  | [] => True
  | k :: l' => (lo < k)%Z /\ ascending k l'
  end.

(** The numbers 1, 2, 3, ... in order, none missing. *)
Definition numberedFromOne (l : list Z) : Prop :=
  l = map Z.of_nat (seq 1 (List.length l)).

Definition splitKms (s : Acc) : list Z := map km (splitsArr s).

(** What every run keeps: the split numbers ascend strictly from 1 and do
    not exceed [lastSplitKm]. *)
Definition ascInv (s : Acc) : Prop :=
  kmInv s
  /\ (0 <= lastSplitKm s)%Z
  /\ ascending 0 (splitKms s)
  /\ (forall x, In x (splitKms s) -> (x <= lastSplitKm s)%Z)
  /\ (splitKms s = [] -> lastSplitKm s = 0%Z)
  /\ (splitKms s <> [] -> hd 0%Z (splitKms s) = 1%Z).

(** What a run over segments shorter than a kilometre keeps: the split
    numbers are 1 .. [lastSplitKm]. *)
Definition numInv (s : Acc) : Prop :=
  kmInv s
  /\ (0 <= lastSplitKm s)%Z
  /\ splitKms s = map Z.of_nat (seq 1 (Z.to_nat (lastSplitKm s))).

(** A track with a gap in the samples: 2.2 km in 10 minutes along a
    meridian, then 1.1 km in 5 minutes. *)
(** Two points in range whose latitudes and longitudes differ by at most
    90 degrees. *)
Definition nearby (prev curr : LngLatTimestamp) : Prop :=
  validPoint prev /\ validPoint curr
  /\ -90 <= latitude curr - latitude prev <= 90
  /\ -90 <= longitude curr - longitude prev <= 90.

(** Whether the segment from [prev] to [curr] is classified as a pause. *)
Definition isPause (prev curr : LngLatTimestamp) : bool :=
  match isStationary_default (segmentDist prev curr) (segmentDeltaT prev curr) with
  | Ok true => true
  | _ => false
  end.

(** The sums that the loop is meant to accumulate, read off the path: the
    length and the duration of the segments that are not pauses, and the
    number of those that are. *)
Fixpoint movingMeters (prev : LngLatTimestamp) (rest : list LngLatTimestamp) : R :=
  match rest with
  | [] => 0
  | curr :: rest' =>
      (if isPause prev curr then 0 else segmentDist prev curr)
      + movingMeters curr rest'
  end.

Fixpoint movingSeconds (prev : LngLatTimestamp) (rest : list LngLatTimestamp) : R :=
  match rest with
  | [] => 0
  | curr :: rest' =>
      (if isPause prev curr then 0 else segmentDeltaT prev curr)
      + movingSeconds curr rest'
  end.

Fixpoint pausesIn (prev : LngLatTimestamp) (rest : list LngLatTimestamp) : nat :=
  match rest with
  | [] => 0
  | curr :: rest' =>
      ((if isPause prev curr then 1 else 0) + pausesIn curr rest')%nat
  end.

(** A track of two segments of about 780 m, 5 minutes each, along a
    meridian. *)
Definition shortTrack : list LngLatTimestamp :=
  [ mkPoint 0 0 0; mkPoint (7 / 1000) 0 300000; mkPoint (14 / 1000) 0 600000 ].

Definition gapTrack : list LngLatTimestamp :=
  [ mkPoint 0 0 0; mkPoint (2 / 100) 0 600000; mkPoint (3 / 100) 0 900000 ].

(** * Properties *)

(** ** The outcome monad and the numeric primitives *)

Lemma bind_Ok_inv {A B : Type} (c : res A) (k : A -> res B) (b : B) :
  bind c k = Ok b -> exists a, c = Ok a /\ k a = Ok b.
Proof.
  destruct c as [a | f]; simpl; intros H.
  - exists a. split; [reflexivity | exact H].
  - discriminate H.
Qed.

Lemma ltb_spec (x y : R) : Num.ltb x y = true <-> x < y.
Proof.
  unfold Num.ltb. destruct (Rlt_dec x y); split; intros; try lra; try discriminate; reflexivity.
Qed.

Lemma geb_spec (x y : R) : Num.geb x y = true <-> y <= x.
Proof.
  unfold Num.geb. destruct (Rge_dec x y); split; intros; try lra; try discriminate; reflexivity.
Qed.

Lemma gtb_spec (x y : R) : Num.gtb x y = true <-> y < x.
Proof.
  unfold Num.gtb. destruct (Rgt_dec x y); split; intros; try lra; try discriminate; reflexivity.
Qed.

Lemma ltb_false (x y : R) : Num.ltb x y = false <-> y <= x.
Proof.
  unfold Num.ltb. destruct (Rlt_dec x y); split; intros; try lra; try discriminate; reflexivity.
Qed.

Lemma geb_false (x y : R) : Num.geb x y = false <-> x < y.
Proof.
  unfold Num.geb. destruct (Rge_dec x y); split; intros; try lra; try discriminate; reflexivity.
Qed.

Lemma gtb_false (x y : R) : Num.gtb x y = false <-> x <= y.
Proof.
  unfold Num.gtb. destruct (Rgt_dec x y); split; intros; try lra; try discriminate; reflexivity.
Qed.

Lemma fdiv_Ok (x y : R) : y <> 0 -> Num.fdiv x y = Ok (x / y).
Proof.
  intros Hy. unfold Num.fdiv. destruct (Req_dec_T y 0); [contradiction | reflexivity].
Qed.

Lemma fdiv_zero (x : R) : Num.fdiv x 0 = Fault DivisionByZero.
Proof.
  unfold Num.fdiv. destruct (Req_dec_T 0 0) as [_ | H]; [reflexivity | now elim H].
Qed.

Lemma floor_bounds (x : R) : IZR (Num.floor x) <= x < IZR (Num.floor x) + 1.
Proof.
  unfold Num.floor. destruct (base_Int_part x) as [H1 H2]. lra.
Qed.

Lemma floor_unique (x : R) (z : Z) : IZR z <= x < IZR z + 1 -> Num.floor x = z.
Proof.
  intros H. unfold Num.floor. symmetry. apply Int_part_spec. lra.
Qed.

Lemma floor_le_mono (x y : R) : x <= y -> (Num.floor x <= Num.floor y)%Z.
Proof.
  intros Hxy.
  pose proof (floor_bounds x) as Hx. pose proof (floor_bounds y) as Hy.
  assert (H : IZR (Num.floor x) < IZR (Num.floor y + 1)) by (rewrite plus_IZR; lra).
  apply lt_IZR in H. lia.
Qed.

Lemma floor_ge (x : R) (z : Z) : IZR z <= x -> (z <= Num.floor x)%Z.
Proof.
  intros H. pose proof (floor_bounds x) as Hx.
  assert (H' : IZR z < IZR (Num.floor x + 1)) by (rewrite plus_IZR; lra).
  apply lt_IZR in H'. lia.
Qed.

(** ** isStationary *)

Lemma isStationary_short (d t speedThreshold pauseThresholdSec : R) :
  t < pauseThresholdSec ->
  isStationary d t speedThreshold pauseThresholdSec = Ok false.
Proof.
  intros Ht. unfold isStationary.
  apply geb_false in Ht. rewrite Ht. reflexivity.
Qed.

Lemma isStationary_long (d t speedThreshold pauseThresholdSec : R) :
  0 < pauseThresholdSec -> pauseThresholdSec <= t ->
  isStationary d t speedThreshold pauseThresholdSec
  = Ok (Num.ltb (d / t) speedThreshold).
Proof.
  intros Hp Ht. unfold isStationary.
  apply geb_spec in Ht. rewrite Ht.
  apply geb_spec in Ht.
  rewrite fdiv_Ok by lra. reflexivity.
Qed.

(** With a positive pause threshold the classifier always answers. *)
Lemma isStationary_total (d t speedThreshold pauseThresholdSec : R) :
  0 < pauseThresholdSec ->
  exists b, isStationary d t speedThreshold pauseThresholdSec = Ok b.
Proof.
  intros Hp. destruct (Rlt_dec t pauseThresholdSec) as [Hlt | Hge].
  - exists false. now apply isStationary_short.
  - eexists. apply isStationary_long; lra.
Qed.

(** C2: with the default thresholds, [isStationary d t] is true exactly
    when [t >= 5] and [d / t < 0.3]; for [t < 5] it is false whatever the
    distance. *)
Theorem isStationary_iff (d t : R) :
  (isStationary_default d t = Ok true <-> (5 <= t /\ d / t < 3 / 10))
  /\ (t < 5 -> isStationary_default d t = Ok false).
Proof.
  unfold isStationary_default. split.
  - destruct (Rlt_dec t 5) as [Hlt | Hge].
    + rewrite isStationary_short by exact Hlt.
      split; [discriminate | lra].
    + rewrite isStationary_long by lra.
      split.
      * intros H. injection H as H. apply ltb_spec in H. lra.
      * intros [_ H]. apply ltb_spec in H. now rewrite H.
  - intros Hlt. now apply isStationary_short.
Qed.

Lemma isStationary_iff_witness :
  isStationary_default 14 50 = Ok true /\ isStationary_default 14 4 = Ok false.
Proof.
  split.
  - apply (proj1 (isStationary_iff 14 50)). lra.
  - apply (proj2 (isStationary_iff 14 4)). lra.
Defined.

(** C8: [isStationary] always answers: the duration is compared with the
    threshold first, so at [deltaSeconds = 0] the quotient is not formed
    and the answer is [false]. *)
Theorem isStationary_no_division_fault (d t : R) :
  (exists b, isStationary_default d t = Ok b)
  /\ isStationary_default d t <> Fault DivisionByZero
  /\ isStationary_default d 0 = Ok false.
Proof.
  unfold isStationary_default.
  assert (Htot : exists b, isStationary d t (3 / 10) 5 = Ok b)
    by (apply isStationary_total; lra).
  split; [exact Htot | split].
  - destruct Htot as [b Hb]. rewrite Hb. discriminate.
  - apply isStationary_short. lra.
Qed.

(** ** haversine *)

Lemma toRadians_opp (x : R) : toRadians (- x) = - toRadians x.
Proof. unfold toRadians. lra. Qed.

Lemma toRadians_0 : toRadians 0 = 0.
Proof. unfold toRadians. lra. Qed.

Lemma haversine_a_sym (lat1 lon1 lat2 lon2 : R) :
  haversine_a lat1 lon1 lat2 lon2 = haversine_a lat2 lon2 lat1 lon1.
Proof.
  unfold haversine_a; cbv zeta.
  replace (lat1 - lat2) with (- (lat2 - lat1)) by ring.
  replace (lon1 - lon2) with (- (lon2 - lon1)) by ring.
  rewrite !toRadians_opp.
  replace (- toRadians (lat2 - lat1) / 2) with (- (toRadians (lat2 - lat1) / 2)) by lra.
  replace (- toRadians (lon2 - lon1) / 2) with (- (toRadians (lon2 - lon1) / 2)) by lra.
  rewrite !sin_neg. ring.
Qed.

Lemma atan_nonneg (x : R) : 0 <= x -> 0 <= atan x.
Proof.
  intros [Hx | Hx].
  - left. rewrite <- atan_0. now apply atan_increasing.
  - rewrite <- Hx, atan_0. lra.
Qed.

Lemma atan2_nonneg (y x : R) : 0 <= y -> 0 <= Num.atan2 y x.
Proof.
  intros Hy. unfold Num.atan2.
  pose proof PI_RGT_0 as HPI.
  destruct (Rlt_dec 0 x) as [Hx | Hx].
  - apply atan_nonneg. apply Rmult_le_pos; [exact Hy | left; now apply Rinv_0_lt_compat].
  - destruct (Rlt_dec x 0) as [Hx' | Hx'].
    + destruct (Rle_dec 0 y) as [_ | Hn]; [| contradiction].
      pose proof (atan_bound (y / x)). lra.
    + destruct (Rlt_dec 0 y); [lra |].
      destruct (Rlt_dec y 0); lra.
Qed.

Lemma atan2_0_pos (x : R) : 0 < x -> Num.atan2 0 x = 0.
Proof.
  intros Hx. unfold Num.atan2.
  destruct (Rlt_dec 0 x); [| contradiction].
  replace (0 / x) with 0 by (field; lra). apply atan_0.
Qed.

(** [Math.atan2 (sin x, cos x)] gives the angle back on [0 .. PI / 2]. *)
Lemma atan2_sin_cos (x : R) :
  0 <= x <= PI / 2 -> Num.atan2 (sin x) (cos x) = x.
Proof.
  intros [Hx0 Hx1]. pose proof PI_RGT_0 as HPI.
  destruct Hx1 as [Hx1 | Hx1].
  - assert (Hc : 0 < cos x) by (apply cos_gt_0; lra).
    unfold Num.atan2. destruct (Rlt_dec 0 (cos x)); [| contradiction].
    change (sin x / cos x) with (tan x). apply atan_tan. lra.
  - subst x. rewrite sin_PI2, cos_PI2. unfold Num.atan2.
    destruct (Rlt_dec 0 0); [lra |].
    destruct (Rlt_dec 0 0); [lra |].
    destruct (Rlt_dec 0 1); [reflexivity | lra].
Qed.

Lemma haversine_nonneg (lat1 lon1 lat2 lon2 : R) :
  0 <= haversine lat1 lon1 lat2 lon2.
Proof.
  unfold haversine, EARTH_RADIUS; cbv zeta.
  pose proof (atan2_nonneg (sqrt (haversine_a lat1 lon1 lat2 lon2))
                (sqrt (1 - haversine_a lat1 lon1 lat2 lon2))
                (sqrt_pos _)).
  nra.
Qed.

(** A point is at distance 0 from itself. *)
Lemma haversine_same (lat lon : R) : haversine lat lon lat lon = 0.
Proof.
  unfold haversine, haversine_a; cbv zeta.
  replace (lat - lat) with 0 by ring. replace (lon - lon) with 0 by ring.
  rewrite toRadians_0. replace (0 / 2) with 0 by lra. rewrite sin_0.
  replace (0 * 0 + cos (toRadians lat) * cos (toRadians lat) * 0 * 0) with 0 by ring.
  rewrite Rminus_0_r, sqrt_0, sqrt_1, atan2_0_pos by lra. ring.
Qed.

(** For latitudes in range both radicands of [haversine] lie in [0, 1], so
    the square roots are those of [Math.sqrt]. *)
Lemma haversine_a_range (lat1 lon1 lat2 lon2 : R) :
  -90 <= lat1 <= 90 -> -90 <= lat2 <= 90 ->
  0 <= haversine_a lat1 lon1 lat2 lon2 <= 1.
Proof.
  intros H1 H2. pose proof PI_RGT_0 as HPI.
  unfold haversine_a; cbv zeta.
  set (p1 := toRadians lat1). set (p2 := toRadians lat2).
  assert (Hp1 : - (PI / 2) <= p1 <= PI / 2) by (unfold p1, toRadians; nra).
  assert (Hp2 : - (PI / 2) <= p2 <= PI / 2) by (unfold p2, toRadians; nra).
  assert (Hc1 : 0 <= cos p1) by (apply cos_ge_0; lra).
  assert (Hc2 : 0 <= cos p2) by (apply cos_ge_0; lra).
  assert (Hd : toRadians (lat2 - lat1) = p2 - p1) by (unfold p1, p2, toRadians; lra).
  rewrite Hd.
  set (s := sin ((p2 - p1) / 2)).
  set (u := sin (toRadians (lon2 - lon1) / 2)).
  assert (Hu : 0 <= u * u <= 1).
  { pose proof (SIN_bound (toRadians (lon2 - lon1) / 2)) as Hb. fold u in Hb. nra. }
  assert (Hs : s * s = (1 - cos (p2 - p1)) / 2).
  { pose proof (cos_2a_sin ((p2 - p1) / 2)) as Hc.
    replace (2 * ((p2 - p1) / 2)) with (p2 - p1) in Hc by lra.
    fold s in Hc. lra. }
  pose proof (cos_minus p2 p1) as Hm. pose proof (cos_plus p2 p1) as Hpl.
  pose proof (COS_bound (p2 + p1)) as Hb.
  pose proof (COS_bound (p2 - p1)) as Hb'.
  assert (Hcc : 0 <= cos p1 * cos p2) by now apply Rmult_le_pos.
  split.
  - nra.
  - assert (cos p1 * cos p2 * u * u <= cos p1 * cos p2) by nra.
    nra.
Qed.

(** Along a meridian, northwards, the distance is the arc of the latitude
    difference. *)
Lemma haversine_meridian (lat1 lat2 lon : R) :
  0 <= lat2 - lat1 <= 180 ->
  haversine lat1 lon lat2 lon = EARTH_RADIUS * toRadians (lat2 - lat1).
Proof.
  intros Hd. pose proof PI_RGT_0 as HPI.
  unfold haversine, haversine_a; cbv zeta.
  replace (lon - lon) with 0 by ring.
  rewrite toRadians_0. replace (0 / 2) with 0 by lra. rewrite sin_0.
  set (x := toRadians (lat2 - lat1) / 2).
  assert (Hx : 0 <= x <= PI / 2) by (unfold x, toRadians; nra).
  assert (Hs : 0 <= sin x) by (apply sin_ge_0; lra).
  assert (Hc : 0 <= cos x) by (apply cos_ge_0; lra).
  replace (sin x * sin x + cos (toRadians lat1) * cos (toRadians lat2) * 0 * 0)
    with (Rsqr (sin x)) by (unfold Rsqr; ring).
  replace (1 - Rsqr (sin x)) with (Rsqr (cos x))
    by (pose proof (sin2_cos2 x); lra).
  rewrite !sqrt_Rsqr by assumption.
  rewrite atan2_sin_cos by exact Hx.
  unfold x. f_equal. lra.
Qed.

(** C9: the haversine distance does not depend on the order of its two
    points, for all latitudes and longitudes in range. *)
Theorem haversine_symmetric (a b : LngLatTimestamp) :
  validPoint a -> validPoint b ->
  haversine (latitude a) (longitude a) (latitude b) (longitude b)
  = haversine (latitude b) (longitude b) (latitude a) (longitude a).
Proof.
  intros _ _. unfold haversine; cbv zeta.
  now rewrite (haversine_a_sym (latitude a) (longitude a)).
Qed.

Lemma haversine_symmetric_witness :
  haversine 51 0 52 1 = haversine 52 1 51 0.
Proof.
  apply (haversine_symmetric (mkPoint 51 0 0) (mkPoint 52 1 1000));
    unfold validPoint; simpl; lra.
Defined.

(** ** One iteration of the loop *)

Lemma initAcc_kmInv (first : LngLatTimestamp) : kmInv (initAcc first).
Proof.
  unfold kmInv; simpl. symmetry. apply floor_unique. simpl. lra.
Qed.

Lemma segmentDist_nonneg (prev curr : LngLatTimestamp) : 0 <= segmentDist prev curr.
Proof. apply haversine_nonneg. Qed.

(** A segment that raises the kilometre count has a positive length. *)
Lemma crossing_positive (s : Acc) (dist : R) :
  (Num.floor (cumDist s / 1000) <= lastSplitKm s)%Z ->
  0 <= dist ->
  (Num.floor ((cumDist s + dist) / 1000) >? lastSplitKm s)%Z = true ->
  0 < dist.
Proof.
  intros Hinv [Hpos | Hzero] Hgt; [exact Hpos |].
  exfalso. subst dist. rewrite Rplus_0_r in Hgt.
  apply Z.gtb_lt in Hgt. lia.
Qed.

Lemma segment_paused (prev curr : LngLatTimestamp) (s : Acc) :
  isStationary_default (segmentDist prev curr) (segmentDeltaT prev curr) = Ok true ->
  segment prev curr s = Ok (pausedBranch (segmentDeltaT prev curr) s).
Proof.
  intros H. unfold segment; cbv zeta. rewrite H. reflexivity.
Qed.

Lemma segment_moving (prev curr : LngLatTimestamp) (s : Acc) :
  isStationary_default (segmentDist prev curr) (segmentDeltaT prev curr) = Ok false ->
  segment prev curr s
  = movingBranch curr (segmentDist prev curr) (segmentDeltaT prev curr) s.
Proof.
  intros H. unfold segment; cbv zeta. rewrite H. reflexivity.
Qed.

Lemma movingBranch_cross (curr : LngLatTimestamp) (dist deltaT : R) (s : Acc) :
  (lastSplitKm s < Num.floor ((cumDist s + dist) / 1000))%Z ->
  dist <> 0 ->
  movingBranch curr dist deltaT s
  = Ok {| cumDist := cumDist s + dist;
          lastSplitKm := Num.floor ((cumDist s + dist) / 1000);
          splitStartTime :=
            timestamp curr
            - Num.rem (cumDist s + dist) 1000 / dist * deltaT * 1000;
          accruedMovingTime := accruedMovingTime s + deltaT;
          accruedPausedTime := accruedPausedTime s;
          pauseCount := pauseCount s;
          splitsArr :=
            splitsArr s
            ++ [ {| km := lastSplitKm s + 1;
                    durationSec := (timestamp curr - splitStartTime s) / 1000 |} ] |}.
Proof.
  intros Hlt Hd. unfold movingBranch; cbv zeta.
  apply Z.gtb_lt in Hlt. rewrite Hlt.
  rewrite fdiv_Ok by exact Hd. reflexivity.
Qed.

Lemma movingBranch_stay (curr : LngLatTimestamp) (dist deltaT : R) (s : Acc) :
  (Num.floor ((cumDist s + dist) / 1000) <= lastSplitKm s)%Z ->
  movingBranch curr dist deltaT s
  = Ok {| cumDist := cumDist s + dist;
          lastSplitKm := lastSplitKm s;
          splitStartTime := splitStartTime s;
          accruedMovingTime := accruedMovingTime s + deltaT;
          accruedPausedTime := accruedPausedTime s;
          pauseCount := pauseCount s;
          splitsArr := splitsArr s |}.
Proof.
  intros Hle. unfold movingBranch; cbv zeta.
  destruct (Z.gtb_spec (Num.floor ((cumDist s + dist) / 1000)) (lastSplitKm s));
    [lia | reflexivity].
Qed.

(** From a state where [lastSplitKm] is not behind [cumDist], an iteration
    returns, in one of the three ways. *)
Lemma segment_step (prev curr : LngLatTimestamp) (s : Acc) :
  (Num.floor (cumDist s / 1000) <= lastSplitKm s)%Z ->
  exists s', segment prev curr s = Ok s' /\ step prev curr s s'.
Proof.
  intros Hinv.
  destruct (isStationary_total (segmentDist prev curr) (segmentDeltaT prev curr)
              (3 / 10) 5 ltac:(lra)) as [[|] Hb];
    fold (isStationary_default (segmentDist prev curr) (segmentDeltaT prev curr)) in Hb.
  - eexists. split; [now apply segment_paused |].
    now apply step_paused.
  - rewrite (segment_moving _ _ _ Hb).
    destruct (Z.gtb_spec (Num.floor ((cumDist s + segmentDist prev curr) / 1000))
                (lastSplitKm s)) as [Hgt | Hle].
    + assert (Hpos : 0 < segmentDist prev curr).
      { apply (crossing_positive s); [exact Hinv | apply segmentDist_nonneg |].
        now apply Z.gtb_lt. }
      eexists. split.
      * apply movingBranch_cross; [exact Hgt | lra].
      * apply step_cross; try reflexivity; try assumption.
        apply movingBranch_cross; [exact Hgt | lra].
    + eexists. split.
      * now apply movingBranch_stay.
      * apply step_stay; try reflexivity; try assumption.
        now apply movingBranch_stay.
Qed.

Lemma step_kmInv (prev curr : LngLatTimestamp) (s s' : Acc) :
  kmInv s -> step prev curr s s' -> kmInv s'.
Proof.
  unfold kmInv. intros Hinv [Hp Hs | Hm Hle _ Hc Hl _ _ _ _ | Hm Hlt _ _ Hc Hl _ _ _ _].
  - subst s'. simpl. exact Hinv.
  - rewrite Hl, Hc. rewrite Hinv in Hle |- *.
    pose proof (segmentDist_nonneg prev curr) as Hd.
    assert (Hmono : (Num.floor (cumDist s / 1000)
                     <= Num.floor ((cumDist s + segmentDist prev curr) / 1000))%Z)
      by (apply floor_le_mono; lra).
    lia.
  - rewrite Hl, Hc. reflexivity.
Qed.

(** ** The loop *)

Lemma last_cons_default (first : LngLatTimestamp) (rest : list LngLatTimestamp)
  (d : LngLatTimestamp) :
  last (first :: rest) d = last rest first.
Proof.
  revert first d. induction rest as [| p rest IH]; intros first d.
  - reflexivity.
  - change (last (first :: p :: rest) d) with (last (p :: rest) d).
    now rewrite !IH.
Qed.

Lemma segments_app (prev : LngLatTimestamp) (l1 l2 : list LngLatTimestamp) (s : Acc) :
  segments prev (l1 ++ l2) s
  = (s' <- segments prev l1 s ;; segments (last l1 prev) l2 s').
Proof.
  revert prev s. induction l1 as [| p l1 IH]; intros prev s.
  - reflexivity.
  - change (segments prev ((p :: l1) ++ l2) s)
      with (s' <- segment prev p s ;; segments p (l1 ++ l2) s').
    change (segments prev (p :: l1) s)
      with (s' <- segment prev p s ;; segments p l1 s').
    destruct (segment prev p s) as [s1 | f]; simpl bind; [| reflexivity].
    rewrite IH.
    change (match l1 with [] => p | _ :: _ => last l1 prev end)
      with (last (p :: l1) prev).
    now rewrite (last_cons_default p l1 prev).
Qed.

(** Invariants of the loop: a property of the point last consumed and the
    accumulator that holds initially and is kept by every iteration on a
    segment of the path holds when the loop ends, and the loop does end with
    a value.  [P] is what is known of the segments of the path. *)
Section LoopInvariant.

Variable P : LngLatTimestamp -> LngLatTimestamp -> Prop.

Variable I : LngLatTimestamp -> Acc -> Prop.

Hypothesis I_km : forall prev s, I prev s -> kmInv s.

Hypothesis I_step :
  forall prev curr s s',
    I prev s -> P prev curr -> step prev curr s s' -> I curr s'.

Lemma segments_invariant (rest : list LngLatTimestamp) :
  forall prev s, allSegments P prev rest -> I prev s ->
  exists s', segments prev rest s = Ok s' /\ I (last rest prev) s'.
Proof.
  induction rest as [| curr rest IH]; intros prev s HP HI.
  - exists s. split; [reflexivity | exact HI].
  - destruct HP as [HP HPrest].
    destruct (segment_step prev curr s) as (s1 & Hseg & Hstep).
    { rewrite (I_km _ _ HI). lia. }
    destruct (IH curr s1 HPrest (I_step _ _ _ _ HI HP Hstep)) as (s' & Hrun & HI').
    exists s'. split.
    + simpl. rewrite Hseg. exact Hrun.
    + rewrite last_cons_default. exact HI'.
Qed.

Lemma foldPath_invariant (first : LngLatTimestamp) (rest : list LngLatTimestamp) :
  allSegments P first rest ->
  I first (initAcc first) ->
  exists s, foldPath (first :: rest) = Ok s /\ I (last rest first) s.
Proof. intros HP H. now apply segments_invariant. Qed.

End LoopInvariant.

Lemma allSegments_True (prev : LngLatTimestamp) (rest : list LngLatTimestamp) :
  allSegments (fun _ _ => True) prev rest.
Proof.
  revert prev. induction rest as [| curr rest IH]; intros prev; simpl; auto.
Qed.

(** The loop returns on every non-empty path, and [lastSplitKm] is the
    number of whole kilometres in [cumDist] when it does. *)
Lemma foldPath_total (first : LngLatTimestamp) (rest : list LngLatTimestamp) :
  exists s, foldPath (first :: rest) = Ok s /\ kmInv s.
Proof.
  apply (foldPath_invariant (fun _ _ => True) (fun _ s => kmInv s)).
  - auto.
  - intros prev curr s s' H _ Hs. exact (step_kmInv _ _ _ _ H Hs).
  - apply allSegments_True.
  - apply initAcc_kmInv.
Qed.

Lemma step_timeInv (first prev curr : LngLatTimestamp) (s s' : Acc) :
  timeInv first prev s -> step prev curr s s' -> timeInv first curr s'.
Proof.
  unfold timeInv, segmentDeltaT.
  intros Hinv [Hp Hs | _ _ _ _ _ _ Hm Hpa _ | _ _ _ _ _ _ _ Hm Hpa _].
  - subst s'. simpl. unfold segmentDeltaT. lra.
  - rewrite Hm, Hpa. unfold segmentDeltaT. lra.
  - rewrite Hm, Hpa. unfold segmentDeltaT. lra.
Qed.

Lemma foldPath_time (first : LngLatTimestamp) (rest : list LngLatTimestamp) :
  exists s, foldPath (first :: rest) = Ok s /\ kmInv s
            /\ timeInv first (last rest first) s.
Proof.
  apply (foldPath_invariant (fun _ _ => True)
           (fun prev s => kmInv s /\ timeInv first prev s)).
  - intros prev s [H _]. exact H.
  - intros prev curr s s' [Hk Ht] _ Hs. split.
    + exact (step_kmInv _ _ _ _ Hk Hs).
    + exact (step_timeInv _ _ _ _ _ Ht Hs).
  - apply allSegments_True.
  - split; [apply initAcc_kmInv |]. unfold timeInv; simpl. lra.
Qed.

(** [setState] returns: the quotient is formed only under its guard. *)
Lemma setState_Ok (path : list LngLatTimestamp) (first : LngLatTimestamp) (s : Acc) :
  exists st, setState path first s = Ok st
    /\ distance st = cumDist s
    /\ movingTime st = accruedMovingTime s
    /\ totalTime st = (timestamp (last path first) - timestamp first) / 1000
    /\ pausedSections st = pauseCount s
    /\ splits st = splitsArr s
    /\ ready st = true
    /\ averageSpeed st
       = (if Rlt_dec 0 (accruedMovingTime s)
          then cumDist s / accruedMovingTime s else 0).
Proof.
  unfold setState; cbv zeta.
  destruct (Rlt_dec 0 (accruedMovingTime s)) as [Hpos | Hnpos].
  - assert (Hg : Num.gtb (accruedMovingTime s) 0 = true) by now apply gtb_spec.
    rewrite Hg, fdiv_Ok by lra. simpl.
    eexists. split; [reflexivity |]. simpl. repeat split; reflexivity.
  - assert (Hg : Num.gtb (accruedMovingTime s) 0 = false) by (apply gtb_false; lra).
    rewrite Hg. simpl.
    eexists. split; [reflexivity |]. simpl. repeat split; reflexivity.
Qed.

(** ** calculateStats and the effect on mount *)

Lemma calculateStats_cons (first : LngLatTimestamp) (rest : list LngLatTimestamp) :
  calculateStats (first :: rest)
  = (s <- foldPath (first :: rest) ;; setState (first :: rest) first s).
Proof. reflexivity. Qed.

(** An iteration credits its duration to one accumulator and leaves the
    other as it was. *)
Lemma segment_credit (prev curr : LngLatTimestamp) (s s' : Acc) :
  segment prev curr s = Ok s' ->
  (isStationary_default (segmentDist prev curr) (segmentDeltaT prev curr) = Ok true
   /\ accruedPausedTime s' = accruedPausedTime s + segmentDeltaT prev curr
   /\ accruedMovingTime s' = accruedMovingTime s)
  \/
  (isStationary_default (segmentDist prev curr) (segmentDeltaT prev curr) = Ok false
   /\ accruedMovingTime s' = accruedMovingTime s + segmentDeltaT prev curr
   /\ accruedPausedTime s' = accruedPausedTime s).
Proof.
  unfold segment; cbv zeta. intros H.
  apply bind_Ok_inv in H. destruct H as ([|] & Hb & H).
  - left. injection H as <-. auto.
  - right. split; [exact Hb |].
    unfold movingBranch in H; cbv zeta in H.
    destruct (_ >? _)%Z.
    + apply bind_Ok_inv in H. destruct H as (q & _ & H).
      injection H as <-. auto.
    + injection H as <-. auto.
Qed.

(** C3: on a path that is missing or has fewer than 2 points the effect
    shows the error alert and nothing else: [calculateStats] is not run, the
    state keeps its initial values with [ready] false, the content is the
    activity indicator and the list has no row. *)
Theorem insufficient_path_reports_error (summary : Summary) :
  match path summary with
  | None => True
  | Some p => (List.length p < 2)%nat
  end ->
  forall st,
    onMount summary st
    = Ok (st, [Alert "Error"%string "Insufficient path data provided."%string])
    /\ (st = initialState ->
        ready st = false
        /\ renderContent st = ActivityIndicator
        /\ listRows st = []
        /\ distance st = 0 /\ movingTime st = 0 /\ totalTime st = 0
        /\ averageSpeed st = 0 /\ pausedSections st = 0%nat).
Proof.
  intros Hshort st. split.
  - unfold onMount. destruct (path summary) as [p |]; [| reflexivity].
    apply Nat.ltb_lt in Hshort. now rewrite Hshort.
  - intros ->. repeat split.
Qed.

Lemma insufficient_path_reports_error_witness :
  onMount {| path := Some [mkPoint 51 0 0] |} initialState
  = Ok (initialState, [Alert "Error"%string "Insufficient path data provided."%string]).
Proof.
  apply (insufficient_path_reports_error {| path := Some [mkPoint 51 0 0] |}).
  simpl. lia.
Defined.

(** C4: on a path of at least 2 points, moving time plus paused time is
    the elapsed time [(t[last] - t[first]) / 1000]; each iteration credits
    its duration to exactly one of the two accumulators. *)
Theorem moving_plus_paused_is_elapsed (first : LngLatTimestamp)
  (rest : list LngLatTimestamp) :
  (2 <= List.length (first :: rest))%nat ->
  (exists s st,
      foldPath (first :: rest) = Ok s
      /\ calculateStats (first :: rest) = Ok st
      /\ movingTime st = accruedMovingTime s
      /\ totalTime st = (timestamp (last rest first) - timestamp first) / 1000
      /\ movingTime st + accruedPausedTime s = totalTime st)
  /\ (forall prev curr a a',
         segment prev curr a = Ok a' ->
         (accruedPausedTime a' = accruedPausedTime a + segmentDeltaT prev curr
          /\ accruedMovingTime a' = accruedMovingTime a)
         \/
         (accruedMovingTime a' = accruedMovingTime a + segmentDeltaT prev curr
          /\ accruedPausedTime a' = accruedPausedTime a)).
Proof.
  intros _. split.
  - destruct (foldPath_time first rest) as (s & Hs & _ & Ht).
    destruct (setState_Ok (first :: rest) first s)
      as (st & Hst & _ & Hm & Htot & _).
    exists s, st. rewrite calculateStats_cons, Hs. simpl bind.
    rewrite last_cons_default in Htot.
    repeat split; try assumption.
    unfold timeInv in Ht. rewrite Hm, Htot. exact Ht.
  - intros prev curr a a' H.
    destruct (segment_credit _ _ _ _ H) as [(_ & H1 & H2) | (_ & H1 & H2)]; auto.
Qed.

(** C6: the average speed is the moving distance accumulated by the loop
    over the moving time it accumulated when that time is positive, and 0
    when it is 0 (or below); in both cases [calculateStats] returns a state,
    whose distance and moving time are those of the loop. *)
Theorem averageSpeed_guarded (path : list LngLatTimestamp) :
  (2 <= List.length path)%nat ->
  exists s st,
    foldPath path = Ok s
    /\ calculateStats path = Ok st
    /\ distance st = cumDist s
    /\ movingTime st = accruedMovingTime s
    /\ (0 < accruedMovingTime s ->
        averageSpeed st = cumDist s / accruedMovingTime s)
    /\ (accruedMovingTime s <= 0 -> averageSpeed st = 0).
Proof.
  destruct path as [| first rest]; [simpl; lia |]. intros _.
  destruct (foldPath_total first rest) as (s & Hs & _).
  destruct (setState_Ok (first :: rest) first s)
    as (st & Hst & Hd & Hm & _ & _ & _ & _ & Havg).
  exists s, st. rewrite calculateStats_cons, Hs. simpl bind.
  repeat split; try assumption; rewrite Havg;
    destruct (Rlt_dec 0 (accruedMovingTime s)); intros; try reflexivity; lra.
Qed.

(** C7: an iteration on a segment classified as paused adds 1 to
    [pauseCount] and the duration to the paused time, and leaves the moving
    distance, the moving time, [lastSplitKm], [splitStartTime] and the
    splits as they were. *)
Theorem paused_segment_frame (prev curr : LngLatTimestamp) (s : Acc) :
  isStationary_default (segmentDist prev curr) (segmentDeltaT prev curr) = Ok true ->
  exists s',
    segment prev curr s = Ok s'
    /\ pauseCount s' = S (pauseCount s)
    /\ accruedPausedTime s' = accruedPausedTime s + segmentDeltaT prev curr
    /\ cumDist s' = cumDist s
    /\ accruedMovingTime s' = accruedMovingTime s
    /\ lastSplitKm s' = lastSplitKm s
    /\ splitStartTime s' = splitStartTime s
    /\ splitsArr s' = splitsArr s.
Proof.
  intros Hp. exists (pausedBranch (segmentDeltaT prev curr) s).
  split; [now apply segment_paused |]. repeat split.
Qed.

(** ** Two points at the same place, 10 seconds apart *)

Lemma same_place_stationary (lat lon t : R) :
  isStationary_default
    (segmentDist (mkPoint lat lon t) (mkPoint lat lon (t + 10000)))
    (segmentDeltaT (mkPoint lat lon t) (mkPoint lat lon (t + 10000)))
  = Ok true.
Proof.
  unfold segmentDist, segmentDeltaT; cbn [latitude longitude timestamp].
  rewrite haversine_same.
  apply (proj1 (isStationary_iff _ _)). lra.
Qed.

(** C5: for two points with the same coordinates and timestamps 10 s
    apart the segment is stationary and the state has 1 pause, moving
    distance 0, moving time 0, elapsed time 10 and no split. *)
Theorem two_identical_points_summary (lat lon t : R) :
  isStationary_default
    (segmentDist (mkPoint lat lon t) (mkPoint lat lon (t + 10000)))
    (segmentDeltaT (mkPoint lat lon t) (mkPoint lat lon (t + 10000)))
  = Ok true
  /\ exists st,
      calculateStats [mkPoint lat lon t; mkPoint lat lon (t + 10000)] = Ok st
      /\ pausedSections st = 1%nat
      /\ distance st = 0
      /\ movingTime st = 0
      /\ totalTime st = 10
      /\ splits st = []
      /\ averageSpeed st = 0
      /\ ready st = true.
Proof.
  split; [apply same_place_stationary |].
  set (p0 := mkPoint lat lon t). set (p1 := mkPoint lat lon (t + 10000)).
  destruct (setState_Ok [p0; p1] p0 (pausedBranch (segmentDeltaT p0 p1) (initAcc p0)))
    as (st & Hst & Hd & Hm & Htot & Hp & Hsp & Hr & Havg).
  exists st. split.
  - rewrite calculateStats_cons. unfold foldPath, segments.
    rewrite (segment_paused p0 p1) by apply same_place_stationary.
    exact Hst.
  - cbn [pausedBranch initAcc cumDist accruedMovingTime pauseCount splitsArr]
      in Hd, Hm, Hp, Hsp, Havg.
    repeat split; try assumption.
    + rewrite Htot. cbn [last p0 p1 timestamp]. lra.
    + rewrite Havg. destruct (Rlt_dec 0 0); [lra | reflexivity].
Qed.

Lemma paused_segment_frame_witness :
  exists s',
    segment (mkPoint 51 0 0) (mkPoint 51 0 (0 + 10000)) (initAcc (mkPoint 51 0 0)) = Ok s'
    /\ pauseCount s' = 1%nat.
Proof.
  destruct (paused_segment_frame (mkPoint 51 0 0) (mkPoint 51 0 (0 + 10000))
              (initAcc (mkPoint 51 0 0)) (same_place_stationary 51 0 0))
    as (s' & H1 & H2 & _).
  exists s'. split; [exact H1 | exact H2].
Defined.

Lemma moving_plus_paused_is_elapsed_witness :
  exists s st,
    foldPath [mkPoint 51 0 0; mkPoint 51 0 (0 + 10000)] = Ok s
    /\ calculateStats [mkPoint 51 0 0; mkPoint 51 0 (0 + 10000)] = Ok st
    /\ movingTime st + accruedPausedTime s = totalTime st.
Proof.
  destruct (moving_plus_paused_is_elapsed (mkPoint 51 0 0) [mkPoint 51 0 (0 + 10000)])
    as [(s & st & H1 & H2 & _ & _ & H3) _].
  - simpl. lia.
  - exists s, st. auto.
Defined.

(** ** The kilometre branch and its quotient *)

(** C10: at the start of every iteration [lastSplitKm] is at least
    [floor (cumDist / 1000)]; the kilometre branch is entered only on a
    segment of positive length, so the quotient [overshootMeters / dist]
    has a non-zero divisor. *)
Theorem split_branch_positive_distance
  (pre post : list LngLatTimestamp) (prev curr : LngLatTimestamp) (s : Acc) :
  foldPath (pre ++ [prev]) = Ok s ->
  foldPath (pre ++ prev :: curr :: post)
  = (s' <- segment prev curr s ;; segments curr post s')
  /\ (Num.floor (cumDist s / 1000) <= lastSplitKm s)%Z
  /\ 0 <= segmentDist prev curr
  /\ ((Num.floor ((cumDist s + segmentDist prev curr) / 1000) >? lastSplitKm s)%Z = true ->
      0 < segmentDist prev curr
      /\ Num.fdiv (Num.rem (cumDist s + segmentDist prev curr) 1000)
                  (segmentDist prev curr)
         = Ok (Num.rem (cumDist s + segmentDist prev curr) 1000
               / segmentDist prev curr)).
Proof.
  intros Hs.
  assert (Hinv : kmInv s).
  { destruct pre as [| first pre].
    - destruct (foldPath_total prev []) as (s0 & H0 & Hk).
      simpl app in Hs. rewrite Hs in H0. injection H0 as ->. exact Hk.
    - destruct (foldPath_total first (pre ++ [prev])) as (s0 & H0 & Hk).
      change ((first :: pre) ++ [prev]) with (first :: pre ++ [prev]) in Hs.
      rewrite Hs in H0. injection H0 as ->. exact Hk. }
  assert (Hle : (Num.floor (cumDist s / 1000) <= lastSplitKm s)%Z)
    by (rewrite Hinv; lia).
  repeat split.
  - destruct pre as [| first pre].
    + simpl in Hs |- *. injection Hs as <-. reflexivity.
    + replace ((first :: pre) ++ prev :: curr :: post)
        with (first :: (pre ++ [prev]) ++ curr :: post)
        by (simpl; now rewrite <- app_assoc).
      unfold foldPath. rewrite segments_app.
      change ((first :: pre) ++ [prev]) with (first :: pre ++ [prev]) in Hs.
      unfold foldPath in Hs. rewrite Hs. simpl bind.
      rewrite last_last. reflexivity.
  - exact Hle.
  - apply segmentDist_nonneg.
  - apply (crossing_positive s); [exact Hle | apply segmentDist_nonneg | assumption].
  - apply fdiv_Ok.
    assert (0 < segmentDist prev curr)
      by (apply (crossing_positive s); [exact Hle | apply segmentDist_nonneg | assumption]).
    lra.
Qed.

(** ** A segment longer than two kilometres *)

Lemma PI_bounds : 3 < PI <= 4.
Proof. pose proof PI2_3_2. pose proof PI_4. lra. Qed.

(** A moving segment that raises the kilometre count pushes one split,
    numbered one more than the previous count, whatever the new count is. *)
Lemma segment_cross (prev curr : LngLatTimestamp) (s : Acc) :
  kmInv s ->
  isStationary_default (segmentDist prev curr) (segmentDeltaT prev curr) = Ok false ->
  (lastSplitKm s < Num.floor ((cumDist s + segmentDist prev curr) / 1000))%Z ->
  exists s',
    segment prev curr s = Ok s'
    /\ kmInv s'
    /\ cumDist s' = cumDist s + segmentDist prev curr
    /\ lastSplitKm s' = Num.floor ((cumDist s + segmentDist prev curr) / 1000)
    /\ map km (splitsArr s') = map km (splitsArr s) ++ [(lastSplitKm s + 1)%Z].
Proof.
  intros Hinv Hm Hlt.
  assert (Hpos : 0 < segmentDist prev curr).
  { apply (crossing_positive s).
    - rewrite Hinv. lia.
    - apply segmentDist_nonneg.
    - now apply Z.gtb_lt. }
  eexists. split.
  - rewrite (segment_moving _ _ _ Hm). apply movingBranch_cross; [exact Hlt | lra].
  - cbn [cumDist lastSplitKm splitsArr]. repeat split.
    now rewrite map_app.
Qed.

Lemma gapTrack_valid : Forall validPoint gapTrack.
Proof.
  unfold gapTrack, validPoint.
  repeat constructor; cbn [latitude longitude]; lra.
Qed.

Lemma gapTrack_dist1 :
  segmentDist (mkPoint 0 0 0) (mkPoint (2 / 100) 0 600000)
  = EARTH_RADIUS * toRadians (2 / 100 - 0).
Proof.
  unfold segmentDist; cbn [latitude longitude]. apply haversine_meridian. lra.
Qed.

Lemma gapTrack_dist2 :
  segmentDist (mkPoint (2 / 100) 0 600000) (mkPoint (3 / 100) 0 900000)
  = EARTH_RADIUS * toRadians (3 / 100 - 2 / 100).
Proof.
  unfold segmentDist; cbn [latitude longitude]. apply haversine_meridian. lra.
Qed.

Lemma gapTrack_dist1_bounds :
  2123 < segmentDist (mkPoint 0 0 0) (mkPoint (2 / 100) 0 600000) < 2832.
Proof.
  rewrite gapTrack_dist1. unfold EARTH_RADIUS, toRadians.
  pose proof PI_bounds. lra.
Qed.

Lemma gapTrack_dist2_bounds :
  1061 < segmentDist (mkPoint (2 / 100) 0 600000) (mkPoint (3 / 100) 0 900000) < 1416.
Proof.
  rewrite gapTrack_dist2. unfold EARTH_RADIUS, toRadians.
  pose proof PI_bounds. lra.
Qed.

Lemma moving_when_fast (d t : R) :
  5 <= t -> 3 / 10 * t <= d -> isStationary_default d t = Ok false.
Proof.
  intros Ht Hd. unfold isStationary_default.
  rewrite isStationary_long by lra. f_equal.
  apply ltb_false.
  apply Rmult_le_reg_r with t; [lra |].
  replace (d / t * t) with d by (field; lra). exact Hd.
Qed.

(** The loop on [gapTrack]: both segments are moving, so the moving time
    is the 900 seconds of the track and the moving distance is that of both
    segments. *)
Lemma gapTrack_run :
  exists s,
    foldPath gapTrack = Ok s
    /\ accruedMovingTime s = 900
    /\ 3184 < cumDist s.
Proof.
  set (p0 := mkPoint 0 0 0).
  set (p1 := mkPoint (2 / 100) 0 600000).
  set (p2 := mkPoint (3 / 100) 0 900000).
  pose proof gapTrack_dist1_bounds as Hd1. fold p0 p1 in Hd1.
  pose proof gapTrack_dist2_bounds as Hd2. fold p1 p2 in Hd2.
  assert (Hm1 : isStationary_default (segmentDist p0 p1) (segmentDeltaT p0 p1)
                = Ok false)
    by (apply moving_when_fast; unfold segmentDeltaT; cbn [timestamp p0 p1]; lra).
  assert (Hm2 : isStationary_default (segmentDist p1 p2) (segmentDeltaT p1 p2)
                = Ok false)
    by (apply moving_when_fast; unfold segmentDeltaT; cbn [timestamp p1 p2]; lra).
  destruct (segment_cross p0 p1 (initAcc p0)) as (s1 & Hs1 & Hinv1 & Hc1 & Hl1 & _).
  { apply initAcc_kmInv. }
  { exact Hm1. }
  { apply Z.lt_le_trans with 2%Z; [reflexivity |].
    apply floor_ge. cbn [initAcc cumDist]. simpl IZR. lra. }
  destruct (segment_step p1 p2 s1) as (s2 & Hs2 & Hstep).
  { rewrite Hinv1. lia. }
  exists s2. split; [| split].
  - unfold gapTrack. fold p0 p1 p2. unfold foldPath, segments.
    rewrite Hs1. simpl bind. rewrite Hs2. reflexivity.
  - destruct (segment_credit _ _ _ _ Hs1) as [(E & _) | (_ & T1 & _)];
      [rewrite Hm1 in E; discriminate E |].
    destruct (segment_credit _ _ _ _ Hs2) as [(E & _) | (_ & T2 & _)];
      [rewrite Hm2 in E; discriminate E |].
    rewrite T2, T1. unfold segmentDeltaT.
    cbn [initAcc accruedMovingTime timestamp p0 p1 p2]. lra.
  - cbn [initAcc cumDist] in Hc1.
    destruct Hstep as [E _ | _ _ _ Hc2 _ _ _ _ _ | _ _ _ _ Hc2 _ _ _ _ _].
    + rewrite Hm2 in E. discriminate E.
    + rewrite Hc2, Hc1. lra.
    + rewrite Hc2, Hc1. lra.
Qed.

Lemma averageSpeed_guarded_witness :
  exists st,
    calculateStats gapTrack = Ok st
    /\ movingTime st = 900
    /\ 3184 < distance st
    /\ averageSpeed st = distance st / 900.
Proof.
  destruct (averageSpeed_guarded gapTrack) as (s & st & Hs & Hst & Hd & Hm & Hpos & _).
  - simpl. lia.
  - destruct gapTrack_run as (s' & Hs' & Ht & Hc).
    rewrite Hs in Hs'. injection Hs' as <-.
    exists st. rewrite Hm, Hd, Ht. repeat split; try assumption.
    rewrite (Hpos ltac:(lra)), Ht. reflexivity.
Defined.

Lemma split_branch_positive_distance_witness :
  0 < segmentDist (mkPoint 0 0 0) (mkPoint (2 / 100) 0 600000).
Proof.
  destruct (split_branch_positive_distance [] [mkPoint (3 / 100) 0 900000]
              (mkPoint 0 0 0) (mkPoint (2 / 100) 0 600000)
              (initAcc (mkPoint 0 0 0)) eq_refl)
    as (_ & _ & _ & Hbranch).
  apply Hbranch. apply Z.gtb_lt.
  pose proof gapTrack_dist1_bounds as Hd.
  assert (Hk : (2 <= Num.floor ((cumDist (initAcc (mkPoint 0 0 0))
                                 + segmentDist (mkPoint 0 0 0)
                                     (mkPoint (2 / 100) 0 600000)) / 1000))%Z).
  { apply floor_ge. cbn [initAcc cumDist]. simpl IZR. lra. }
  cbn [initAcc lastSplitKm]. lia.
Defined.

(** C1, on the code: the first segment of [gapTrack] is 2.2 km long, the
    second 1.1 km; the splits that come out are numbered 1 and 3. *)
Theorem gapTrack_splits_skip_km2 :
  exists st,
    calculateStats gapTrack = Ok st
    /\ map km (splits st) = [1; 3]%Z
    /\ ~ numberedFromOne (map km (splits st)).
Proof.
  set (p0 := mkPoint 0 0 0).
  set (p1 := mkPoint (2 / 100) 0 600000).
  set (p2 := mkPoint (3 / 100) 0 900000).
  pose proof gapTrack_dist1_bounds as Hd1. fold p0 p1 in Hd1.
  pose proof gapTrack_dist2_bounds as Hd2. fold p1 p2 in Hd2.
  (* first segment: 0 km -> 2 km *)
  assert (Hk1 : Num.floor ((cumDist (initAcc p0) + segmentDist p0 p1) / 1000) = 2%Z).
  { apply floor_unique. cbn [initAcc cumDist]. simpl IZR. lra. }
  destruct (segment_cross p0 p1 (initAcc p0)) as (s1 & Hs1 & Hinv1 & Hc1 & Hl1 & Hm1).
  { apply initAcc_kmInv. }
  { apply moving_when_fast; unfold segmentDeltaT; cbn [timestamp p0 p1]; lra. }
  { rewrite Hk1. reflexivity. }
  rewrite Hk1 in Hl1. cbn [initAcc cumDist lastSplitKm splitsArr map app] in Hc1, Hm1.
  (* second segment: 2 km -> 3 km or more *)
  assert (Hk2 : (3 <= Num.floor ((cumDist s1 + segmentDist p1 p2) / 1000))%Z).
  { apply floor_ge. rewrite Hc1. simpl IZR. lra. }
  destruct (segment_cross p1 p2 s1) as (s2 & Hs2 & _ & _ & _ & Hm2).
  { exact Hinv1. }
  { apply moving_when_fast; unfold segmentDeltaT; cbn [timestamp p1 p2]; lra. }
  { rewrite Hl1. lia. }
  rewrite Hm1, Hl1 in Hm2.
  destruct (setState_Ok gapTrack p0 s2) as (st & Hst & _ & _ & _ & _ & Hsp & _).
  exists st. split.
  - unfold gapTrack. fold p0 p1 p2. rewrite calculateStats_cons.
    unfold foldPath, segments. rewrite Hs1. simpl bind. rewrite Hs2. simpl bind.
    exact Hst.
  - rewrite Hsp, Hm2. split; [reflexivity |].
    unfold numberedFromOne. simpl. discriminate.
Qed.

(** ** The loop by index and the loop by recursion agree *)

Lemma bind_Ok_r {A : Type} (c : res A) : (x <- c ;; Ok x) = c.
Proof. destruct c; reflexivity. Qed.

Lemma bind_assoc {A B C : Type} (c : res A) (k : A -> res B) (h : B -> res C) :
  (y <- (x <- c ;; k x) ;; h y) = (x <- c ;; y <- k x ;; h y).
Proof. destruct c; reflexivity. Qed.

Lemma nth_error_middle (pre : list LngLatTimestamp) (p : LngLatTimestamp)
  (post : list LngLatTimestamp) :
  nth_error (pre ++ p :: post) (List.length pre) = Some p.
Proof.
  rewrite nth_error_app2 by lia. now rewrite Nat.sub_diag.
Qed.

Lemma iteration_middle (pre post : list LngLatTimestamp) (prev curr : LngLatTimestamp)
  (s : Acc) :
  iteration (pre ++ prev :: curr :: post) (S (List.length pre)) s
  = segment prev curr s.
Proof.
  unfold iteration.
  replace (S (List.length pre) - 1)%nat with (List.length pre) by lia.
  rewrite nth_error_middle.
  replace (pre ++ prev :: curr :: post) with ((pre ++ [prev]) ++ curr :: post)
    by (now rewrite <- app_assoc).
  replace (S (List.length pre)) with (List.length (pre ++ [prev]))
    by (rewrite length_app; simpl; lia).
  now rewrite nth_error_middle.
Qed.

Lemma forLoop_from (path rest : list LngLatTimestamp) :
  forall (pre : list LngLatTimestamp) (prev : LngLatTimestamp) (r : res Acc),
    path = pre ++ prev :: rest ->
    fold_left (fun r i => s' <- r ;; iteration path i s')
              (seq (S (List.length pre)) (List.length rest)) r
    = (s <- r ;; segments prev rest s).
Proof.
  induction rest as [| curr rest IH]; intros pre prev r Hpath.
  - simpl. now rewrite bind_Ok_r.
  - cbn [List.length seq fold_left segments].
    replace (S (S (List.length pre))) with (S (List.length (pre ++ [prev])))
      by (rewrite length_app; simpl; lia).
    rewrite (IH (pre ++ [prev]) curr).
    + rewrite bind_assoc. destruct r as [s |]; [| reflexivity].
      simpl bind. now rewrite Hpath, iteration_middle.
    + rewrite Hpath. now rewrite <- app_assoc.
Qed.

(** The index loop of the source, started on the initial accumulator, is
    the recursion over consecutive points. *)
Lemma forLoop_foldPath (first : LngLatTimestamp) (rest : list LngLatTimestamp) :
  forLoop (first :: rest) (initAcc first) = foldPath (first :: rest).
Proof.
  unfold forLoop, foldPath.
  replace (List.length (first :: rest) - 1)%nat with (List.length rest)
    by (simpl; lia).
  exact (forLoop_from (first :: rest) rest [] first (Ok (initAcc first)) eq_refl).
Qed.

(** ** The numbering of the splits *)

Lemma ascending_snoc (lo k : Z) (l : list Z) :
  ascending lo l -> (lo < k)%Z -> (forall x, In x l -> (x < k)%Z) ->
  ascending lo (l ++ [k]).
Proof.
  revert lo. induction l as [| a l IH]; intros lo Hasc Hlo Hall; simpl.
  - auto.
  - destruct Hasc as [Ha Hasc]. split; [exact Ha |].
    apply IH; [exact Hasc | apply Hall; now left | intros x Hx; apply Hall; now right].
Qed.

Lemma step_ascInv (prev curr : LngLatTimestamp) (s s' : Acc) :
  ascInv s -> step prev curr s s' -> ascInv s'.
Proof.
  intros (Hk & H0 & Hasc & Hle & Hnil & Hhd) Hstep.
  split; [exact (step_kmInv _ _ _ _ Hk Hstep) |].
  unfold splitKms in *.
  destruct Hstep as [Hp Hs | Hm Hstay _ Hc Hl Hsp _ _ _ | Hm Hlt _ _ Hc Hl Hsp _ _ _].
  - subst s'. cbn [pausedBranch lastSplitKm splitsArr]. auto.
  - rewrite Hl, Hsp. auto.
  - rewrite Hl, Hsp, map_app. cbn [map km].
    repeat split.
    + lia.
    + apply ascending_snoc; [exact Hasc | lia |].
      intros x Hx. specialize (Hle x Hx). lia.
    + intros x Hx. apply in_app_or in Hx. destruct Hx as [Hx | [<- | []]].
      * specialize (Hle x Hx). lia.
      * lia.
    + intros Habs. destruct (map km (splitsArr s)); discriminate Habs.
    + intros _. destruct (map km (splitsArr s)) as [| a l] eqn:E.
      * rewrite (Hnil eq_refl). reflexivity.
      * apply Hhd. discriminate.
Qed.

(** X22: on every path the split numbers ascend strictly and the first is 1. *)
Lemma splits_ascending (first : LngLatTimestamp) (rest : list LngLatTimestamp) :
  exists st,
    calculateStats (first :: rest) = Ok st
    /\ ascending 0 (map km (splits st))
    /\ (splits st <> [] -> hd 0%Z (map km (splits st)) = 1%Z).
Proof.
  destruct (foldPath_invariant (fun _ _ => True) (fun _ s => ascInv s)) with
    (first := first) (rest := rest) as (s & Hs & Hinv).
  - intros prev s0 H. apply H.
  - intros prev curr s0 s' H _ Hstep. exact (step_ascInv _ _ _ _ H Hstep).
  - apply allSegments_True.
  - split; [apply initAcc_kmInv |]. unfold splitKms. cbn [initAcc lastSplitKm splitsArr map].
    repeat split; try lia; try easy.
  - destruct (setState_Ok (first :: rest) first s) as (st & Hst & _ & _ & _ & _ & Hsp & _).
    exists st. rewrite calculateStats_cons, Hs. simpl bind.
    destruct Hinv as (_ & _ & Hasc & _ & _ & Hhd). unfold splitKms in *.
    rewrite Hsp. repeat split; try assumption.
    intros Hne. apply Hhd. destruct (splitsArr s); [now elim Hne | discriminate].
Qed.

Lemma floor_next (c d : R) :
  0 <= d < 1000 ->
  (Num.floor ((c + d) / 1000) <= Num.floor (c / 1000) + 1)%Z.
Proof.
  intros Hd.
  pose proof (floor_bounds ((c + d) / 1000)) as H1.
  pose proof (floor_bounds (c / 1000)) as H2.
  assert (H : IZR (Num.floor ((c + d) / 1000)) < IZR (Num.floor (c / 1000) + 2))
    by (rewrite plus_IZR; simpl IZR; lra).
  apply lt_IZR in H. lia.
Qed.

Lemma step_numInv (prev curr : LngLatTimestamp) (s s' : Acc) :
  numInv s -> segmentDist prev curr < 1000 -> step prev curr s s' -> numInv s'.
Proof.
  intros (Hk & H0 & Hnum) Hshort Hstep.
  split; [exact (step_kmInv _ _ _ _ Hk Hstep) |].
  unfold splitKms in *.
  destruct Hstep as [Hp Hs | Hm Hstay _ Hc Hl Hsp _ _ _ | Hm Hlt Hpos _ Hc Hl Hsp _ _ _].
  - subst s'. cbn [pausedBranch lastSplitKm splitsArr]. auto.
  - rewrite Hl, Hsp. auto.
  - assert (Hnext : Num.floor ((cumDist s + segmentDist prev curr) / 1000)
                    = (lastSplitKm s + 1)%Z).
    { pose proof (floor_next (cumDist s) (segmentDist prev curr)) as Hn.
      rewrite <- Hk in Hn. specialize (Hn ltac:(lra)). lia. }
    rewrite Hl, Hsp, Hnext, map_app. cbn [map km]. split; [lia |].
    replace (Z.to_nat (lastSplitKm s + 1)) with (S (Z.to_nat (lastSplitKm s))) by lia.
    rewrite seq_S, map_app, Hnum. cbn [map]. f_equal. f_equal. lia.
Qed.

(** X23: when every segment of the path is shorter than a kilometre the
    splits are numbered 1, 2, 3, ... with none missing. *)
Lemma short_segments_numbered (first : LngLatTimestamp) (rest : list LngLatTimestamp) :
  allSegments (fun prev curr => segmentDist prev curr < 1000) first rest ->
  exists st,
    calculateStats (first :: rest) = Ok st
    /\ numberedFromOne (map km (splits st)).
Proof.
  intros Hshort.
  destruct (foldPath_invariant (fun prev curr => segmentDist prev curr < 1000)
              (fun _ s => numInv s)) with
    (first := first) (rest := rest) as (s & Hs & Hinv).
  - intros prev s0 H. apply H.
  - intros prev curr s0 s' H HP Hstep. exact (step_numInv _ _ _ _ H HP Hstep).
  - exact Hshort.
  - split; [apply initAcc_kmInv |]. unfold splitKms. cbn [initAcc lastSplitKm splitsArr map].
    split; [lia | reflexivity].
  - destruct (setState_Ok (first :: rest) first s) as (st & Hst & _ & _ & _ & _ & Hsp & _).
    exists st. rewrite calculateStats_cons, Hs. simpl bind.
    split; [exact Hst |].
    destruct Hinv as (_ & _ & Hnum). unfold splitKms in Hnum.
    unfold numberedFromOne. rewrite Hsp, Hnum, length_map, length_seq.
    reflexivity.
Qed.

(** * Further properties of the code *)

(** ** haversine: range and special cases *)

Lemma atan2_quadrant (y x : R) : 0 <= y -> 0 <= x -> Num.atan2 y x <= PI / 2.
Proof.
  intros Hy Hx. pose proof PI_RGT_0 as HPI. unfold Num.atan2.
  destruct (Rlt_dec 0 x) as [Hpos | Hnpos].
  - pose proof (atan_bound (y / x)). lra.
  - destruct (Rlt_dec x 0); [lra |].
    destruct (Rlt_dec 0 y); [lra |].
    destruct (Rlt_dec y 0); lra.
Qed.

Lemma haversine_sym (lat1 lon1 lat2 lon2 : R) :
  haversine lat1 lon1 lat2 lon2 = haversine lat2 lon2 lat1 lon1.
Proof.
  unfold haversine; cbv zeta. now rewrite (haversine_a_sym lat1 lon1).
Qed.

(** X1: the distance of a point to itself is 0, whatever the point. *)
Theorem haversine_identical_points (lat lon : R) :
  haversine lat lon lat lon = 0.
Proof.
  unfold haversine, haversine_a; cbv zeta.
  rewrite !Rminus_diag, toRadians_0.
  replace (0 / 2) with 0 by lra. rewrite sin_0.
  rewrite !Rmult_0_r, Rplus_0_r, Rminus_0_r, sqrt_0, sqrt_1.
  rewrite atan2_0_pos by lra. ring.
Qed.

(** For two points at most 90 degrees apart, [a] stays well below 1. *)
Lemma haversine_a_nearby (lat1 lon1 lat2 lon2 : R) :
  -90 <= lat1 <= 90 -> -90 <= lat2 <= 90 ->
  -90 <= lat2 - lat1 <= 90 -> -90 <= lon2 - lon1 <= 90 ->
  0 <= haversine_a lat1 lon1 lat2 lon2 <= 3 / 4.
Proof.
  intros H1 H2 Hdlat Hdlon. pose proof PI_RGT_0 as HPI.
  unfold haversine_a; cbv zeta.
  set (p1 := toRadians lat1). set (p2 := toRadians lat2).
  set (dl := toRadians (lon2 - lon1)).
  assert (Hp1 : - (PI / 2) <= p1 <= PI / 2) by (unfold p1, toRadians; nra).
  assert (Hp2 : - (PI / 2) <= p2 <= PI / 2) by (unfold p2, toRadians; nra).
  assert (Hd : toRadians (lat2 - lat1) = p2 - p1) by (unfold p1, p2, toRadians; lra).
  assert (Hdp : - (PI / 2) <= p2 - p1 <= PI / 2)
    by (rewrite <- Hd; unfold toRadians; nra).
  assert (Hdl : - (PI / 2) <= dl <= PI / 2) by (unfold dl, toRadians; nra).
  rewrite Hd.
  assert (Hc1 : 0 <= cos p1) by (apply cos_ge_0; lra).
  assert (Hc2 : 0 <= cos p2) by (apply cos_ge_0; lra).
  assert (Hcd : 0 <= cos (p2 - p1)) by (apply cos_ge_0; lra).
  assert (Hcl : 0 <= cos dl) by (apply cos_ge_0; lra).
  set (sd := sin ((p2 - p1) / 2)). set (u := sin (dl / 2)).
  assert (Hs : sd * sd = (1 - cos (p2 - p1)) / 2).
  { pose proof (cos_2a_sin ((p2 - p1) / 2)) as Hc.
    replace (2 * ((p2 - p1) / 2)) with (p2 - p1) in Hc by lra.
    fold sd in Hc. lra. }
  assert (Hu : u * u = (1 - cos dl) / 2).
  { pose proof (cos_2a_sin (dl / 2)) as Hc.
    replace (2 * (dl / 2)) with dl in Hc by lra.
    fold u in Hc. lra. }
  pose proof (cos_minus p2 p1) as Hm. pose proof (cos_plus p2 p1) as Hpl.
  pose proof (COS_bound (p2 + p1)) as Hb.
  pose proof (COS_bound dl) as Hbl.
  assert (Hcc : 0 <= cos p1 * cos p2) by now apply Rmult_le_pos.
  replace (sd * sd + cos p1 * cos p2 * u * u)
    with (sd * sd + cos p1 * cos p2 * (u * u)) by ring.
  rewrite Hs, Hu. split; nra.
Qed.

(** X2: for two points in range that are at most 90 degrees apart in
    latitude and in longitude, the quantity [a] is at least 0 and below 1,
    so both square roots are of numbers that are not negative, and the
    distance is at least 0 and at most half the circumference. *)
Theorem haversine_range (a b : LngLatTimestamp) :
  nearby a b ->
  0 <= haversine_a (latitude a) (longitude a) (latitude b) (longitude b) < 1
  /\ 0 <= segmentDist a b <= PI * EARTH_RADIUS.
Proof.
  intros ([Ha _] & [Hb _] & Hdlat & Hdlon).
  pose proof (haversine_a_nearby _ (longitude a) _ (longitude b) Ha Hb Hdlat Hdlon)
    as Hr.
  split; [lra |].
  unfold segmentDist, haversine; cbv zeta.
  set (h := haversine_a _ _ _ _) in *.
  pose proof (atan2_nonneg (sqrt h) (sqrt (1 - h)) (sqrt_pos _)) as H0.
  pose proof (atan2_quadrant (sqrt h) (sqrt (1 - h)) (sqrt_pos _) (sqrt_pos _)) as H1.
  unfold EARTH_RADIUS. split; nra.
Qed.

Lemma haversine_range_witness :
  0 <= segmentDist (mkPoint 51 0 0) (mkPoint 52 1 1000) <= PI * EARTH_RADIUS.
Proof.
  apply (haversine_range (mkPoint 51 0 0) (mkPoint 52 1 1000)).
  unfold nearby, validPoint; simpl; lra.
Defined.

(** X3: along a meridian, in either direction, the distance is the Earth
    radius times the difference of the latitudes in radians. *)
Theorem haversine_along_meridian (lat1 lat2 lon : R) :
  Rabs (lat2 - lat1) <= 180 ->
  haversine lat1 lon lat2 lon = EARTH_RADIUS * toRadians (Rabs (lat2 - lat1)).
Proof.
  intros Hd. destruct (Rle_dec lat1 lat2) as [Hle | Hgt].
  - rewrite Rabs_right in Hd |- * by lra.
    apply haversine_meridian. lra.
  - rewrite Rabs_left in Hd |- * by lra.
    rewrite haversine_sym.
    replace (- (lat2 - lat1)) with (lat1 - lat2) in Hd |- * by ring.
    apply haversine_meridian. lra.
Qed.

Lemma haversine_along_meridian_witness :
  haversine 52 0 51 0 = EARTH_RADIUS * toRadians (Rabs (51 - 52)).
Proof.
  apply (haversine_along_meridian 52 51 0).
  rewrite Rabs_left by lra. lra.
Defined.

(** ** calculateDistance of the coordinates-only screen *)

Lemma segmentMeters_haversine (p q : RouteScreen.LngLat) :
  RouteScreen.segmentMeters p q
  = haversine (RouteScreen.lat p) (RouteScreen.lng p)
              (RouteScreen.lat q) (RouteScreen.lng q).
Proof.
  unfold RouteScreen.segmentMeters, haversine, haversine_a,
    RouteScreen.toRad, toRadians, RouteScreen.R_earth, EARTH_RADIUS; cbv zeta.
  replace 6371e3 with 6371000 by lra.
  f_equal. f_equal. f_equal; [| f_equal]; f_equal; ring.
Qed.


Lemma distanceFrom_acc (rest : list RouteScreen.LngLat) :
  forall prev d,
    RouteScreen.distanceFrom prev rest d = d + RouteScreen.distanceFrom prev rest 0.
Proof.
  induction rest as [| curr rest IH]; intros prev d; simpl.
  - lra.
  - rewrite (IH curr (d + _)), (IH curr (0 + _)). lra.
Qed.


Lemma calculateDistance_cons2 (a b : RouteScreen.LngLat) (l : list RouteScreen.LngLat) :
  RouteScreen.calculateDistance (a :: b :: l)
  = RouteScreen.segmentMeters a b + RouteScreen.calculateDistance (b :: l).
Proof.
  simpl. rewrite distanceFrom_acc. lra.
Qed.

Lemma route_last_cons (rest : list RouteScreen.LngLat) :
  forall first curr : RouteScreen.LngLat,
    last (curr :: rest) first = last rest curr.
Proof.
  induction rest as [| q rest IH]; intros first curr.
  - reflexivity.
  - change (last (curr :: q :: rest) first) with (last (q :: rest) first).
    now rewrite !IH.
Qed.

Lemma northwards_last (rest : list RouteScreen.LngLat) :
  forall first,
    RouteScreen.northwards first rest ->
    RouteScreen.lat first <= RouteScreen.lat (last rest first)
    /\ RouteScreen.lng (last rest first) = RouteScreen.lng first.
Proof.
  induction rest as [| curr rest IH]; intros first Hn.
  - simpl. split; [lra | reflexivity].
  - destruct Hn as (Hlng & Hlat & Hn).
    destruct (IH curr Hn) as [Hle Heq].
    rewrite route_last_cons. split; [lra | congruence].
Qed.

(** X4: on a route that keeps to one meridian and never turns south,
    [calculateDistance] is the Earth radius times the latitude difference
    of its two ends in radians, however many points lie between. *)
Theorem calculateDistance_along_meridian
  (first : RouteScreen.LngLat) (rest : list RouteScreen.LngLat) :
  RouteScreen.northwards first rest ->
  RouteScreen.lat (last rest first) - RouteScreen.lat first <= 180 ->
  RouteScreen.calculateDistance (first :: rest)
  = RouteScreen.R_earth
    * RouteScreen.toRad (RouteScreen.lat (last rest first) - RouteScreen.lat first).
Proof.
  revert first. induction rest as [| curr rest IH]; intros first Hn Hspan.
  - simpl. unfold RouteScreen.toRad. lra.
  - destruct Hn as (Hlng & Hlat & Hn).
    destruct (northwards_last rest curr Hn) as [Hle _].
    rewrite route_last_cons in Hspan |- *.
    rewrite calculateDistance_cons2, (IH curr Hn) by lra.
    rewrite segmentMeters_haversine, Hlng, haversine_meridian by lra.
    unfold RouteScreen.R_earth, EARTH_RADIUS, RouteScreen.toRad, toRadians.
    replace 6371e3 with 6371000 by lra. lra.
Qed.

Lemma calculateDistance_along_meridian_witness :
  RouteScreen.calculateDistance
    [RouteScreen.mkLngLat 51 0; RouteScreen.mkLngLat (51 + 1 / 1000) 0;
     RouteScreen.mkLngLat (51 + 3 / 1000) 0]
  = RouteScreen.R_earth * RouteScreen.toRad (51 + 3 / 1000 - 51).
Proof.
  apply (calculateDistance_along_meridian (RouteScreen.mkLngLat 51 0)
           [RouteScreen.mkLngLat (51 + 1 / 1000) 0;
            RouteScreen.mkLngLat (51 + 3 / 1000) 0]).
  - simpl. repeat split; lra.
  - simpl. lra.
Defined.



(** ** Moving distance, moving time and pauses as sums over the path *)

Lemma isPause_true (prev curr : LngLatTimestamp) :
  isStationary_default (segmentDist prev curr) (segmentDeltaT prev curr) = Ok true ->
  isPause prev curr = true.
Proof. unfold isPause. now intros ->. Qed.

Lemma isPause_false (prev curr : LngLatTimestamp) :
  isStationary_default (segmentDist prev curr) (segmentDeltaT prev curr) = Ok false ->
  isPause prev curr = false.
Proof. unfold isPause. now intros ->. Qed.

Lemma movingMeters_nonneg (rest : list LngLatTimestamp) :
  forall prev, 0 <= movingMeters prev rest.
Proof.
  induction rest as [| curr rest IH]; intros prev; simpl; [lra |].
  pose proof (IH curr). pose proof (segmentDist_nonneg prev curr).
  destruct (isPause prev curr); lra.
Qed.

Lemma pausesIn_le (rest : list LngLatTimestamp) :
  forall prev, (pausesIn prev rest <= List.length rest)%nat.
Proof.
  induction rest as [| curr rest IH]; intros prev; simpl; [lia |].
  pose proof (IH curr). destruct (isPause prev curr); lia.
Qed.

(** The loop adds to its three counters what the sums say. *)
Lemma segments_sums (rest : list LngLatTimestamp) :
  forall prev s,
    kmInv s ->
    exists s',
      segments prev rest s = Ok s'
      /\ cumDist s' = cumDist s + movingMeters prev rest
      /\ accruedMovingTime s' = accruedMovingTime s + movingSeconds prev rest
      /\ pauseCount s' = (pauseCount s + pausesIn prev rest)%nat.
Proof.
  induction rest as [| curr rest IH]; intros prev s Hinv.
  - exists s. simpl. repeat split; try lra; lia.
  - destruct (segment_step prev curr s) as (s1 & Hseg & Hstep).
    { rewrite Hinv. lia. }
    destruct (IH curr s1 (step_kmInv _ _ _ _ Hinv Hstep))
      as (s' & Hrun & Hd & Ht & Hp).
    exists s'. split; [simpl; rewrite Hseg; exact Hrun |].
    cbn [movingMeters movingSeconds pausesIn].
    destruct Hstep as [Hst Hs1 | Hst _ _ Hc _ _ Hm _ Hpc | Hst _ _ _ Hc _ _ Hm _ Hpc].
    + rewrite (isPause_true _ _ Hst). subst s1.
      cbn [pausedBranch cumDist accruedMovingTime pauseCount] in *.
      repeat split; try lra; lia.
    + rewrite (isPause_false _ _ Hst). rewrite Hc in Hd. rewrite Hm in Ht.
      rewrite Hpc in Hp. repeat split; try lra; lia.
    + rewrite (isPause_false _ _ Hst). rewrite Hc in Hd. rewrite Hm in Ht.
      rewrite Hpc in Hp. repeat split; try lra; lia.
Qed.

(** X8: in exact arithmetic, on a path whose consecutive points are at
    most 90 degrees apart, the moving distance is the sum of the haversine
    lengths of the segments that are not pauses, the moving time the sum of
    their durations, and the number of pauses the number of the other
    segments, at most the number of segments; the splits have no part in
    them. *)
Theorem moving_figures_are_sums (first : LngLatTimestamp)
  (rest : list LngLatTimestamp) :
  allSegments nearby first rest ->
  exists st,
    calculateStats (first :: rest) = Ok st
    /\ distance st = movingMeters first rest
    /\ movingTime st = movingSeconds first rest
    /\ pausedSections st = pausesIn first rest
    /\ (pausedSections st <= List.length rest)%nat
    /\ 0 <= distance st.
Proof.
  intros _.
  destruct (segments_sums rest first (initAcc first) (initAcc_kmInv first))
    as (s & Hs & Hd & Ht & Hp).
  destruct (setState_Ok (first :: rest) first s)
    as (st & Hst & Hdist & Hm & _ & Hpc & _).
  exists st. rewrite calculateStats_cons. unfold foldPath. rewrite Hs. simpl bind.
  split; [exact Hst |].
  cbn [initAcc cumDist accruedMovingTime pauseCount] in Hd, Ht, Hp.
  rewrite Hdist, Hm, Hpc, Hd, Ht, Hp.
  pose proof (movingMeters_nonneg rest first).
  pose proof (pausesIn_le rest first).
  repeat split; try lra; lia.
Qed.

Lemma moving_figures_are_sums_witness :
  exists st,
    calculateStats gapTrack = Ok st
    /\ distance st
       = segmentDist (mkPoint 0 0 0) (mkPoint (2 / 100) 0 600000)
         + segmentDist (mkPoint (2 / 100) 0 600000) (mkPoint (3 / 100) 0 900000)
    /\ pausedSections st = 0%nat.
Proof.
  destruct (moving_figures_are_sums (mkPoint 0 0 0)
              [mkPoint (2 / 100) 0 600000; mkPoint (3 / 100) 0 900000])
    as (st & Hst & Hd & _ & Hp & _).
  - simpl. unfold nearby, validPoint. simpl. repeat split; lra.
  - pose proof gapTrack_dist1_bounds as Hd1.
    pose proof gapTrack_dist2_bounds as Hd2.
    assert (E1 : isPause (mkPoint 0 0 0) (mkPoint (2 / 100) 0 600000) = false)
      by (apply isPause_false, moving_when_fast;
          unfold segmentDeltaT; cbn [timestamp]; lra).
    assert (E2 : isPause (mkPoint (2 / 100) 0 600000) (mkPoint (3 / 100) 0 900000)
                 = false)
      by (apply isPause_false, moving_when_fast;
          unfold segmentDeltaT; cbn [timestamp]; lra).
    cbn [movingMeters pausesIn] in Hd, Hp. rewrite E1, E2 in Hd, Hp.
    exists st. split; [exact Hst |]. split; [rewrite Hd; lra | exact Hp].
Defined.

(** X9: when consecutive samples are less than 5 seconds apart no segment
    is counted as a pause and no time is credited to the paused time. *)
Theorem fast_sampling_never_pauses (first : LngLatTimestamp)
  (rest : list LngLatTimestamp) :
  allSegments (fun prev curr => segmentDeltaT prev curr < 5) first rest ->
  exists s st,
    foldPath (first :: rest) = Ok s
    /\ calculateStats (first :: rest) = Ok st
    /\ pausedSections st = 0%nat
    /\ pauseCount s = 0%nat
    /\ accruedPausedTime s = 0.
Proof.
  intros Hfast.
  destruct (foldPath_invariant
              (fun prev curr => segmentDeltaT prev curr < 5)
              (fun prev s => kmInv s /\ pauseCount s = 0%nat
                             /\ accruedPausedTime s = 0))
    with (first := first) (rest := rest) as (s & Hs & Hk & Hp & Hpt).
  - intros prev s H. apply H.
  - intros prev curr s s' (Hk & Hp & Hpt) Hdt Hstep.
    split; [exact (step_kmInv _ _ _ _ Hk Hstep) |].
    destruct Hstep as [Hst _ | _ _ _ _ _ _ _ Hpa Hpc | _ _ _ _ _ _ _ _ Hpa Hpc].
    + rewrite (proj2 (isStationary_iff _ _) Hdt) in Hst. discriminate Hst.
    + split; congruence.
    + split; congruence.
  - exact Hfast.
  - split; [apply initAcc_kmInv |]. now cbn [initAcc pauseCount accruedPausedTime].
  - destruct (setState_Ok (first :: rest) first s)
      as (st & Hst & _ & _ & _ & Hpc & _).
    exists s, st. rewrite calculateStats_cons, Hs. simpl bind.
    repeat split; try assumption. congruence.
Qed.

Lemma fast_sampling_never_pauses_witness :
  exists s st,
    foldPath [mkPoint 51 0 0; mkPoint 51 0 1000; mkPoint 51 0 3000] = Ok s
    /\ calculateStats [mkPoint 51 0 0; mkPoint 51 0 1000; mkPoint 51 0 3000] = Ok st
    /\ pausedSections st = 0%nat.
Proof.
  destruct (fast_sampling_never_pauses (mkPoint 51 0 0)
              [mkPoint 51 0 1000; mkPoint 51 0 3000])
    as (s & st & H1 & H2 & H3 & _).
  - simpl. unfold segmentDeltaT. simpl. repeat split; lra.
  - exists s, st. auto.
Defined.

(** ** The splits against the moving distance *)

Lemma foldPath_ascInv (first : LngLatTimestamp) (rest : list LngLatTimestamp) :
  exists s, foldPath (first :: rest) = Ok s /\ ascInv s /\ 0 <= cumDist s.
Proof.
  apply (foldPath_invariant (fun _ _ => True)
           (fun _ s => ascInv s /\ 0 <= cumDist s)).
  - intros prev s [H _]. apply H.
  - intros prev curr s s' [Ha Hc] _ Hstep.
    split; [exact (step_ascInv _ _ _ _ Ha Hstep) |].
    pose proof (segmentDist_nonneg prev curr) as Hd.
    destruct Hstep as [_ -> | _ _ _ E _ _ _ _ _ | _ _ _ _ E _ _ _ _ _].
    + exact Hc.
    + rewrite E. lra.
    + rewrite E. lra.
  - apply allSegments_True.
  - split.
    + split; [apply initAcc_kmInv |]. unfold splitKms.
      cbn [initAcc lastSplitKm splitsArr map]. repeat split; try lia; try easy.
    + simpl. lra.
Qed.

Lemma ascending_facts (l : list Z) :
  forall lo hi,
    ascending lo l -> (forall x, In x l -> (x <= hi)%Z) -> (lo <= hi)%Z ->
    NoDup l /\ (forall x, In x l -> (lo < x)%Z)
    /\ (lo + Z.of_nat (List.length l) <= hi)%Z.
Proof.
  induction l as [| k l IH]; intros lo hi Hasc Hle Hlohi.
  - repeat split; [constructor | intros x [] | simpl; lia].
  - destruct Hasc as [Hk Hasc].
    destruct (IH k hi Hasc) as (Hnd & Hgt & Hlen).
    + intros x Hx. apply Hle. now right.
    + apply Hle. now left.
    + repeat split.
      * constructor; [| exact Hnd]. intros Hin. specialize (Hgt k Hin). lia.
      * intros x [<- | Hx]; [exact Hk |]. specialize (Hgt x Hx). lia.
      * cbn [List.length]. lia.
Qed.

(** X10: on a path whose consecutive points are at most 90 degrees
    apart, the splits have pairwise distinct kilometre numbers, each between
    1 and the whole kilometres of the moving distance, so there are at most
    that many splits. *)
Theorem splits_within_distance (first : LngLatTimestamp)
  (rest : list LngLatTimestamp) :
  allSegments nearby first rest ->
  exists st,
    calculateStats (first :: rest) = Ok st
    /\ NoDup (map km (splits st))
    /\ (forall sp, In sp (splits st) ->
          (1 <= km sp <= Num.floor (distance st / 1000))%Z)
    /\ (Z.of_nat (List.length (splits st)) <= Num.floor (distance st / 1000))%Z.
Proof.
  intros _.
  destruct (foldPath_ascInv first rest)
    as (s & Hs & (Hk & H0 & Hasc & Hle & _ & _) & _).
  destruct (setState_Ok (first :: rest) first s)
    as (st & Hst & Hdist & _ & _ & _ & Hsp & _).
  exists st. rewrite calculateStats_cons, Hs. simpl bind.
  split; [exact Hst |]. rewrite Hsp, Hdist, <- Hk.
  unfold splitKms in *.
  destruct (ascending_facts _ 0%Z (lastSplitKm s) Hasc Hle H0) as (Hnd & Hgt & Hlen).
  rewrite length_map in Hlen.
  repeat split.
  - exact Hnd.
  - assert (Hin : In (km sp) (map km (splitsArr s))) by now apply in_map.
    specialize (Hgt _ Hin). lia.
  - apply Hle. now apply in_map.
  - lia.
Qed.

Lemma splits_within_distance_witness :
  exists st,
    calculateStats gapTrack = Ok st
    /\ NoDup (map km (splits st))
    /\ (forall sp, In sp (splits st) ->
          (1 <= km sp <= Num.floor (distance st / 1000))%Z)
    /\ (Z.of_nat (List.length (splits st)) <= Num.floor (distance st / 1000))%Z.
Proof.
  apply (splits_within_distance (mkPoint 0 0 0)
           [mkPoint (2 / 100) 0 600000; mkPoint (3 / 100) 0 900000]).
  simpl. unfold nearby, validPoint. simpl. repeat split; lra.
Defined.

(** X11: the line "No full kilometers completed." is not shown before the
    statistics are computed; once they are, on a path whose consecutive
    points are at most 90 degrees apart, it is shown exactly when the moving
    distance is below 1000 m. *)
Theorem noSplitsLabel_iff (first : LngLatTimestamp) (rest : list LngLatTimestamp) :
  allSegments nearby first rest ->
  noSplitsLabel initialState = false
  /\ exists st,
      calculateStats (first :: rest) = Ok st
      /\ (noSplitsLabel st = true <-> distance st < 1000).
Proof.
  intros _. split; [reflexivity |].
  destruct (foldPath_ascInv first rest)
    as (s & Hs & (Hk & H0 & Hasc & Hle & Hnil & _) & Hc).
  destruct (setState_Ok (first :: rest) first s)
    as (st & Hst & Hdist & _ & _ & _ & Hsp & Hr & _).
  exists st. rewrite calculateStats_cons, Hs. simpl bind.
  split; [exact Hst |]. unfold noSplitsLabel. rewrite Hr, Hsp, Hdist.
  cbn [negb]. unfold kmInv in Hk. unfold splitKms in *.
  pose proof (floor_bounds (cumDist s / 1000)) as Hfl.
  rewrite Nat.eqb_eq. split.
  - intros Hlen.
    assert (Hempty : map km (splitsArr s) = [])
      by (destruct (splitsArr s); [reflexivity | discriminate Hlen]).
    rewrite <- Hk, (Hnil Hempty) in Hfl. simpl IZR in Hfl. lra.
  - intros Hlt.
    assert (Hz : Num.floor (cumDist s / 1000) = 0%Z)
      by (apply floor_unique; simpl IZR; lra).
    destruct (splitsArr s) as [| sp l]; [reflexivity |].
    exfalso. destruct Hasc as [Hpos _].
    assert (Hin : In (km sp) (map km (sp :: l))) by now left.
    specialize (Hle _ Hin). lia.
Qed.

Lemma noSplitsLabel_iff_witness :
  exists st,
    calculateStats gapTrack = Ok st
    /\ (noSplitsLabel st = true <-> distance st < 1000).
Proof.
  apply (noSplitsLabel_iff (mkPoint 0 0 0)
           [mkPoint (2 / 100) 0 600000; mkPoint (3 / 100) 0 900000]).
  simpl. unfold nearby, validPoint. simpl. repeat split; lra.
Defined.

(** ** Timestamps that do not decrease *)

Lemma rem_1000 (x : R) :
  0 <= x -> Num.rem x 1000 = x - 1000 * IZR (Num.floor (x / 1000)).
Proof.
  intros Hx. unfold Num.rem, Num.trunc, Num.floor.
  destruct (Rle_dec 0 (x / 1000)) as [_ | Hn]; [reflexivity | lra].
Qed.

(** On a segment that raises the kilometre count, the part of the segment
    beyond the last boundary is a fraction of it. *)
Lemma overshoot_fraction (s : Acc) (dist : R) :
  kmInv s -> 0 <= cumDist s -> 0 < dist ->
  (lastSplitKm s < Num.floor ((cumDist s + dist) / 1000))%Z ->
  0 <= Num.rem (cumDist s + dist) 1000 / dist < 1.
Proof.
  intros Hk Hc Hd Hlt. rewrite rem_1000 by lra.
  set (k := Num.floor ((cumDist s + dist) / 1000)) in *.
  pose proof (floor_bounds ((cumDist s + dist) / 1000)) as Hnew. fold k in Hnew.
  pose proof (floor_bounds (cumDist s / 1000)) as Hold. rewrite <- Hk in Hold.
  assert (Hz : IZR (lastSplitKm s) + 1 <= IZR k).
  { rewrite <- (plus_IZR _ 1). apply IZR_le. lia. }
  set (o := cumDist s + dist - 1000 * IZR k).
  assert (Ho : 0 <= o < dist) by (unfold o; lra).
  assert (Hf : o / dist * dist = o) by (field; lra).
  split.
  - apply Rmult_le_pos; [lra | left; now apply Rinv_0_lt_compat].
  - apply Rmult_lt_reg_r with dist; [exact Hd |]. rewrite Hf. lra.
Qed.

(** What the loop keeps when the timestamps of the path do not decrease:
    both times are non-negative, the split in progress started within the
    time consumed, and so did every split pushed. *)
Lemma foldPath_monotone (first : LngLatTimestamp) (rest : list LngLatTimestamp) :
  allSegments (fun prev curr => timestamp prev <= timestamp curr) first rest ->
  exists s,
    foldPath (first :: rest) = Ok s
    /\ 0 <= cumDist s
    /\ 0 <= accruedMovingTime s
    /\ 0 <= accruedPausedTime s
    /\ timeInv first (last rest first) s
    /\ timestamp first <= splitStartTime s <= timestamp (last rest first)
    /\ Forall (fun sp =>
                 0 <= durationSec sp
                 <= (timestamp (last rest first) - timestamp first) / 1000)
              (splitsArr s).
Proof.
  intros Hmono.
  destruct (foldPath_invariant
              (fun prev curr => timestamp prev <= timestamp curr)
              (fun prev s =>
                 kmInv s /\ 0 <= cumDist s
                 /\ 0 <= accruedMovingTime s /\ 0 <= accruedPausedTime s
                 /\ timeInv first prev s
                 /\ timestamp first <= splitStartTime s <= timestamp prev
                 /\ Forall (fun sp =>
                              0 <= durationSec sp
                              <= (timestamp prev - timestamp first) / 1000)
                           (splitsArr s)))
    with (first := first) (rest := rest) as (s & Hs & _ & H).
  - intros prev s H. apply H.
  - intros prev curr s s' (Hk & Hc & Hm & Hp & Ht & Hst & Hall) Hle Hstep.
    split; [exact (step_kmInv _ _ _ _ Hk Hstep) |].
    assert (Hdt : 0 <= segmentDeltaT prev curr) by (unfold segmentDeltaT; lra).
    pose proof (segmentDist_nonneg prev curr) as Hd.
    assert (Hall' : Forall (fun sp =>
                              0 <= durationSec sp
                              <= (timestamp curr - timestamp first) / 1000)
                           (splitsArr s)).
    { eapply Forall_impl; [| exact Hall]. simpl. intros sp Hsp. lra. }
    pose proof (step_timeInv _ _ _ _ _ Ht Hstep) as Ht'.
    destruct Hstep as [_ -> | _ Hstay Hmb Ec _ Es Em Ep _ | _ Hlt Hpos Hmb Ec _ Es Em Ep _].
    + cbn [pausedBranch cumDist accruedMovingTime accruedPausedTime
             splitStartTime splitsArr].
      repeat split; try lra; try assumption.
    + rewrite movingBranch_stay in Hmb by exact Hstay.
      assert (Est : splitStartTime s' = splitStartTime s)
        by (injection Hmb as <-; reflexivity).
      rewrite Ec, Es, Em, Ep, Est. repeat split; try lra; try assumption.
    + rewrite movingBranch_cross in Hmb by (try exact Hlt; lra).
      assert (Est : splitStartTime s'
                    = timestamp curr
                      - Num.rem (cumDist s + segmentDist prev curr) 1000
                        / segmentDist prev curr * segmentDeltaT prev curr * 1000)
        by (injection Hmb as <-; reflexivity).
      pose proof (overshoot_fraction s _ Hk Hc Hpos Hlt) as Hfrac.
      set (f := Num.rem (cumDist s + segmentDist prev curr) 1000
                / segmentDist prev curr) in *.
      assert (Edt : segmentDeltaT prev curr * 1000 = timestamp curr - timestamp prev)
        by (unfold segmentDeltaT; lra).
      assert (Hstart : timestamp prev <= splitStartTime s' <= timestamp curr).
      { rewrite Est, Rmult_assoc, Edt. nra. }
      rewrite Ec, Es, Em, Ep. repeat split; try lra; try assumption.
      apply Forall_app. split; [exact Hall' |].
      constructor; [| constructor]. cbn [durationSec]. lra.
  - exact Hmono.
  - split; [apply initAcc_kmInv |]. unfold timeInv.
    cbn [initAcc cumDist accruedMovingTime accruedPausedTime splitStartTime splitsArr].
    repeat split; try lra. constructor.
  - exists s. split; [exact Hs | exact H].
Qed.

Lemma allSegments_middle (P : LngLatTimestamp -> LngLatTimestamp -> Prop)
  (pre : list LngLatTimestamp) :
  forall first rest prev curr post,
    allSegments P first rest ->
    first :: rest = pre ++ prev :: curr :: post ->
    P prev curr.
Proof.
  induction pre as [| p pre IH]; intros first rest prev curr post HP E.
  - simpl in E. injection E as -> ->. apply HP.
  - simpl in E. injection E as -> ->.
    remember (pre ++ prev :: curr :: post) as l eqn:El.
    destruct l as [| x l]; [destruct pre; discriminate El |].
    destruct HP as [_ HP]. exact (IH x l prev curr post HP El).
Qed.

Lemma allSegments_impl (P Q : LngLatTimestamp -> LngLatTimestamp -> Prop)
  (rest : list LngLatTimestamp) :
  (forall prev curr, P prev curr -> Q prev curr) ->
  forall first, allSegments P first rest -> allSegments Q first rest.
Proof.
  intros HPQ. induction rest as [| curr rest IH]; intros first H; simpl in *; auto.
  destruct H as [H1 H2]. split; auto.
Qed.

(** The state before an iteration of the loop on a path. *)
Lemma foldPath_prefix_state (pre : list LngLatTimestamp) (prev : LngLatTimestamp)
  (s : Acc) :
  foldPath (pre ++ [prev]) = Ok s -> kmInv s /\ 0 <= cumDist s.
Proof.
  intros Hs.
  assert (H : exists first rest, pre ++ [prev] = first :: rest)
    by (destruct pre as [| p pre]; simpl; eauto).
  destruct H as (first & rest & E). rewrite E in Hs.
  destruct (foldPath_ascInv first rest) as (s0 & H0 & (Hk & _) & Hc).
  rewrite Hs in H0. injection H0 as <-. auto.
Qed.

(** X12: when the timestamps do not decrease along the path, every split
    has a duration between 0 and the elapsed time; and whenever an iteration
    pushes a split, the start it sets for the next split lies within the
    segment of that iteration, between the timestamps of its two points. *)
Theorem split_durations_within_elapsed (first : LngLatTimestamp)
  (rest : list LngLatTimestamp) :
  allSegments (fun prev curr => timestamp prev <= timestamp curr) first rest ->
  (exists st,
      calculateStats (first :: rest) = Ok st
      /\ Forall (fun sp => 0 <= durationSec sp <= totalTime st) (splits st))
  /\ (forall pre prev curr post s,
         first :: rest = pre ++ prev :: curr :: post ->
         foldPath (pre ++ [prev]) = Ok s ->
         isStationary_default (segmentDist prev curr) (segmentDeltaT prev curr)
         = Ok false ->
         (lastSplitKm s < Num.floor ((cumDist s + segmentDist prev curr) / 1000))%Z ->
         exists s',
           segment prev curr s = Ok s'
           /\ timestamp prev <= splitStartTime s' <= timestamp curr
           /\ splitsArr s'
              = splitsArr s
                ++ [ {| km := lastSplitKm s + 1;
                        durationSec := (timestamp curr - splitStartTime s) / 1000 |} ]).
Proof.
  intros Hmono. split.
  - destruct (foldPath_monotone first rest Hmono)
      as (s & Hs & _ & _ & _ & _ & _ & Hall).
    destruct (setState_Ok (first :: rest) first s)
      as (st & Hst & _ & _ & Htot & _ & Hsp & _).
    exists st. rewrite calculateStats_cons, Hs. simpl bind.
    split; [exact Hst |]. rewrite Hsp, Htot, last_cons_default. exact Hall.
  - intros pre prev curr post s E Hs Hmov Hlt.
    pose proof (allSegments_middle _ pre first rest prev curr post Hmono E) as Hle.
    simpl in Hle.
    destruct (foldPath_prefix_state pre prev s Hs) as [Hk Hc].
    assert (Hpos : 0 < segmentDist prev curr).
    { apply (crossing_positive s); [rewrite Hk; lia | apply segmentDist_nonneg |].
      now apply Z.gtb_lt. }
    pose proof (overshoot_fraction s _ Hk Hc Hpos Hlt) as Hfrac.
    eexists. split; [| split].
    + rewrite (segment_moving _ _ _ Hmov).
      apply movingBranch_cross; [exact Hlt | lra].
    + cbn [splitStartTime].
      set (f := Num.rem (cumDist s + segmentDist prev curr) 1000
                / segmentDist prev curr) in *.
      assert (Edt : segmentDeltaT prev curr * 1000 = timestamp curr - timestamp prev)
        by (unfold segmentDeltaT; lra).
      rewrite Rmult_assoc, Edt. nra.
    + reflexivity.
Qed.

Lemma split_durations_within_elapsed_witness :
  exists s s',
    foldPath [mkPoint 0 0 0; mkPoint (2 / 100) 0 600000] = Ok s
    /\ segment (mkPoint (2 / 100) 0 600000) (mkPoint (3 / 100) 0 900000) s = Ok s'
    /\ 600000 <= splitStartTime s' <= 900000.
Proof.
  set (p0 := mkPoint 0 0 0).
  set (p1 := mkPoint (2 / 100) 0 600000).
  set (p2 := mkPoint (3 / 100) 0 900000).
  pose proof gapTrack_dist1_bounds as Hd1. fold p0 p1 in Hd1.
  pose proof gapTrack_dist2_bounds as Hd2. fold p1 p2 in Hd2.
  destruct (segment_cross p0 p1 (initAcc p0)) as (s1 & Hs1 & _ & Hc1 & Hl1 & _).
  { apply initAcc_kmInv. }
  { apply moving_when_fast; unfold segmentDeltaT; cbn [timestamp p0 p1]; lra. }
  { apply Z.lt_le_trans with 2%Z; [reflexivity |].
    apply floor_ge. cbn [initAcc cumDist]. simpl IZR. lra. }
  cbn [initAcc cumDist] in Hc1, Hl1.
  assert (Hl1' : lastSplitKm s1 = 2%Z).
  { rewrite Hl1. apply floor_unique. simpl IZR. lra. }
  assert (Hfold : foldPath [p0; p1] = Ok s1).
  { unfold foldPath, segments. rewrite Hs1. reflexivity. }
  destruct (split_durations_within_elapsed p0 [p1; p2]) as [_ Hstart].
  - simpl. repeat split; lra.
  - destruct (Hstart [p0] p1 p2 [] s1 eq_refl Hfold) as (s2 & Hs2 & Hin & _).
    + apply moving_when_fast; unfold segmentDeltaT; cbn [timestamp p1 p2]; lra.
    + rewrite Hl1'. apply Z.lt_le_trans with 3%Z; [reflexivity |].
      apply floor_ge. rewrite Hc1. simpl IZR. lra.
    + exists s1, s2. cbn [timestamp p1 p2] in Hin. auto.
Defined.

(** X13: when the timestamps do not decrease along the path and its
    consecutive points are at most 90 degrees apart, none of the figures is
    negative: neither the moving distance, nor the moving time, nor the
    elapsed time, nor the average speed. *)
Theorem figures_not_negative (first : LngLatTimestamp)
  (rest : list LngLatTimestamp) :
  allSegments (fun prev curr => timestamp prev <= timestamp curr /\ nearby prev curr)
              first rest ->
  exists st,
    calculateStats (first :: rest) = Ok st
    /\ 0 <= distance st
    /\ 0 <= movingTime st
    /\ 0 <= totalTime st
    /\ 0 <= averageSpeed st.
Proof.
  intros Hboth.
  assert (Hmono : allSegments (fun prev curr => timestamp prev <= timestamp curr)
                              first rest).
  { revert Hboth. apply allSegments_impl. intros prev curr [H _]. exact H. }
  destruct (foldPath_monotone first rest Hmono)
    as (s & Hs & Hc & Hm & Hp & Ht & _ & _).
  destruct (setState_Ok (first :: rest) first s)
    as (st & Hst & Hd & Hmt & Htot & _ & _ & _ & Havg).
  exists st. rewrite calculateStats_cons, Hs. simpl bind.
  split; [exact Hst |]. rewrite Hd, Hmt, Htot, Havg, last_cons_default.
  unfold timeInv in Ht. repeat split; try lra.
  destruct (Rlt_dec 0 (accruedMovingTime s)) as [Hpos | _]; [| lra].
  apply Rmult_le_pos; [exact Hc | left; now apply Rinv_0_lt_compat].
Qed.

Lemma figures_not_negative_witness :
  exists st,
    calculateStats gapTrack = Ok st
    /\ 0 <= distance st
    /\ 0 <= movingTime st
    /\ 0 <= totalTime st
    /\ 0 <= averageSpeed st.
Proof.
  apply (figures_not_negative (mkPoint 0 0 0)
           [mkPoint (2 / 100) 0 600000; mkPoint (3 / 100) 0 900000]).
  simpl. unfold nearby, validPoint. simpl. repeat split; lra.
Defined.

(** ** The recording screen *)

Lemma calculateStats_ready (first : LngLatTimestamp) (rest : list LngLatTimestamp) :
  exists st, calculateStats (first :: rest) = Ok st /\ ready st = true.
Proof.
  destruct (foldPath_total first rest) as (s & Hs & _).
  destruct (setState_Ok (first :: rest) first s)
    as (st & Hst & _ & _ & _ & _ & _ & Hr & _).
  exists st. rewrite calculateStats_cons, Hs. simpl bind. auto.
Qed.

Lemma stopTracking_effects (s : MapScreen.Screen) :
  forall fx, In fx (snd (MapScreen.stopTracking s)) ->
             exists id, fx = MapScreen.ClearWatch id /\ MapScreen.watchId s = Some id.
Proof.
  unfold MapScreen.stopTracking. destruct (MapScreen.watchId s) as [id |]; simpl.
  - intros fx [<- | []]. now exists id.
  - intros fx [].
Qed.

(** X14: stopping ends the recording and clears the watch if there is
    one, and only then, keeping the route and the region; stopping again
    changes nothing and clears nothing, so a watch is cleared once. *)
Theorem stopTracking_idempotent (s : MapScreen.Screen) :
  snd (MapScreen.stopTracking s)
  = match MapScreen.watchId s with
    | Some id => [MapScreen.ClearWatch id]
    | None => []
    end
  /\ MapScreen.tracking (fst (MapScreen.stopTracking s)) = false
  /\ MapScreen.watchId (fst (MapScreen.stopTracking s)) = None
  /\ MapScreen.route (fst (MapScreen.stopTracking s)) = MapScreen.route s
  /\ MapScreen.region (fst (MapScreen.stopTracking s)) = MapScreen.region s
  /\ MapScreen.stopTracking (fst (MapScreen.stopTracking s))
     = (fst (MapScreen.stopTracking s), []).
Proof.
  unfold MapScreen.stopTracking.
  destruct (MapScreen.watchId s) as [id |]; simpl; now repeat split.
Qed.

(** X15: [finishTracking] navigates exactly when the route has at least 2
    points; it then goes to WorkoutComplete with the route as path, and
    that screen runs [calculateStats] and becomes ready without showing an
    alert.  Otherwise it shows the alert "Not enough data for route". *)
Theorem finishTracking_navigation (s : MapScreen.Screen) :
  (forall screen summary,
      In (MapScreen.Navigate screen summary) (snd (MapScreen.finishTracking s)) ->
      (2 <= List.length (MapScreen.route s))%nat
      /\ screen = "WorkoutComplete"%string
      /\ path summary = Some (MapScreen.route s)
      /\ exists st, onMount summary initialState = Ok (st, []) /\ ready st = true)
  /\ ((2 <= List.length (MapScreen.route s))%nat ->
      In (MapScreen.Navigate "WorkoutComplete"%string
            {| path := Some (MapScreen.route s) |})
         (snd (MapScreen.finishTracking s)))
  /\ ((List.length (MapScreen.route s) < 2)%nat ->
      In (MapScreen.ShowAlert "Not enough data for route"%string None [])
         (snd (MapScreen.finishTracking s))).
Proof.
  unfold MapScreen.finishTracking.
  pose proof (stopTracking_effects s) as Hfx.
  destruct (MapScreen.stopTracking s) as [s' fx]. cbn [snd] in Hfx.
  assert (Hclear : forall screen summary last,
             In (MapScreen.Navigate screen summary) (fx ++ [last]) ->
             last = MapScreen.Navigate screen summary).
  { intros screen summary last H.
    apply in_app_or in H. destruct H as [H | [H | []]]; [| exact H].
    destruct (Hfx _ H) as (id & E & _). discriminate E. }
  destruct (Nat.ltb_spec (List.length (MapScreen.route s)) 2) as [Hlt | Hge];
    cbn [snd]; split; [| split | | split].
  - intros screen summary H. apply Hclear in H. discriminate H.
  - intros Hge. lia.
  - intros _. apply in_or_app. right. now left.
  - intros screen summary H. apply Hclear in H. injection H as <- <-.
    split; [exact Hge |]. split; [reflexivity |]. split; [reflexivity |].
    unfold onMount. cbn [path].
    destruct (Nat.ltb_spec (List.length (MapScreen.route s)) 2) as [Hlt | _]; [lia |].
    destruct (MapScreen.route s) as [| first rest]; [simpl in Hge; lia |].
    destruct (calculateStats_ready first rest) as (st & Hst & Hr).
    exists st. rewrite Hst. simpl bind. auto.
  - intros _. apply in_or_app. right. now left.
  - intros Hlt. lia.
Qed.

Lemma finishTracking_navigation_witness :
  In (MapScreen.Navigate "WorkoutComplete"%string
        {| path := Some [mkPoint 51 0 0; mkPoint 51 0 1000] |})
     (snd (MapScreen.finishTracking
             {| MapScreen.region := MapScreen.INITIAL_REGION;
                MapScreen.route := [mkPoint 51 0 0; mkPoint 51 0 1000];
                MapScreen.tracking := true;
                MapScreen.watchId := Some 7%nat |})).
Proof.
  apply (finishTracking_navigation
           {| MapScreen.region := MapScreen.INITIAL_REGION;
              MapScreen.route := [mkPoint 51 0 0; mkPoint 51 0 1000];
              MapScreen.tracking := true;
              MapScreen.watchId := Some 7%nat |}).
  simpl. lia.
Defined.

Lemma onPositions_route (captured : MapScreen.Region) (mapReady : bool)
  (ps : list (R * MapScreen.GeoPosition)) :
  forall s,
    MapScreen.route (MapScreen.onPositions captured mapReady ps s)
    = MapScreen.route s ++ map MapScreen.recorded ps
    /\ MapScreen.tracking (MapScreen.onPositions captured mapReady ps s)
       = MapScreen.tracking s
    /\ MapScreen.watchId (MapScreen.onPositions captured mapReady ps s)
       = MapScreen.watchId s.
Proof.
  induction ps as [| [now pos] ps IH]; intros s.
  - simpl. now rewrite app_nil_r.
  - cbn [MapScreen.onPositions].
    destruct (IH (fst (MapScreen.onPosition captured mapReady now pos s)))
      as (Hr & Ht & Hw).
    rewrite Hr, Ht, Hw. cbn [MapScreen.onPosition fst MapScreen.route
      MapScreen.tracking MapScreen.watchId map].
    rewrite <- app_assoc. repeat split.
Qed.

(** X16: a session from Start to Stop.  With the permission granted,
    whatever the route held before, the route after the positions [ps] is
    the points recorded for them, in their order; finishing then clears the
    watch that Start registered and either navigates to WorkoutComplete with
    these points as path or, for fewer than 2 of them, shows the alert. *)
Theorem session_records_positions
  (os : MapScreen.platform)
  (request : MapScreen.permission -> MapScreen.permissionStatus)
  (id : nat) (captured : MapScreen.Region) (mapReady : bool)
  (ps : list (R * MapScreen.GeoPosition)) (s0 : MapScreen.Screen) :
  MapScreen.requestPermission os request = true ->
  let s1 := fst (MapScreen.startTracking os request id s0) in
  let s2 := MapScreen.onPositions captured mapReady ps s1 in
  MapScreen.route s2 = map MapScreen.recorded ps
  /\ MapScreen.tracking s2 = true
  /\ MapScreen.tracking (fst (MapScreen.finishTracking s2)) = false
  /\ MapScreen.watchId (fst (MapScreen.finishTracking s2)) = None
  /\ snd (MapScreen.finishTracking s2)
     = [ MapScreen.ClearWatch id;
         if (List.length ps <? 2)%nat
         then MapScreen.ShowAlert "Not enough data for route"%string None []
         else MapScreen.Navigate "WorkoutComplete"%string
                {| path := Some (map MapScreen.recorded ps) |} ].
Proof.
  intros Hok s1 s2.
  destruct (onPositions_route captured mapReady ps s1) as (Hr & Ht & Hw).
  fold s2 in Hr, Ht, Hw.
  assert (Hs1 : MapScreen.route s1 = [] /\ MapScreen.tracking s1 = true
                /\ MapScreen.watchId s1 = Some id).
  { unfold s1, MapScreen.startTracking. cbv zeta. rewrite Hok. simpl. auto. }
  destruct Hs1 as (Hr1 & Ht1 & Hw1).
  rewrite Hr1 in Hr. simpl app in Hr. rewrite Ht1 in Ht. rewrite Hw1 in Hw.
  split; [exact Hr |]. split; [exact Ht |].
  unfold MapScreen.finishTracking, MapScreen.stopTracking.
  rewrite Hw, Hr, length_map.
  destruct (List.length ps <? 2)%nat; simpl; repeat split.
Qed.

Lemma session_records_positions_witness :
  MapScreen.route
    (MapScreen.onPositions MapScreen.INITIAL_REGION true
       [(5, MapScreen.mkPosition 51 0 (Some 0));
        (1005, MapScreen.mkPosition 51 0 None)]
       (fst (MapScreen.startTracking MapScreen.Android
               (fun _ => MapScreen.GRANTED) 7%nat MapScreen.initialScreen)))
  = [mkPoint 51 0 0; mkPoint 51 0 1005].
Proof.
  apply (session_records_positions MapScreen.Android (fun _ => MapScreen.GRANTED)
           7%nat MapScreen.INITIAL_REGION true
           [(5, MapScreen.mkPosition 51 0 (Some 0));
            (1005, MapScreen.mkPosition 51 0 None)]
           MapScreen.initialScreen).
  reflexivity.
Defined.

(** X17: the start marker is at the first point of the route and stays
    there while positions come in; on an empty route it appears at the first
    position that comes in. *)
Theorem startMarker_fixed (captured : MapScreen.Region) (mapReady : bool)
  (ps : list (R * MapScreen.GeoPosition)) (s : MapScreen.Screen) :
  MapScreen.startMarker (MapScreen.onPositions captured mapReady ps s)
  = match MapScreen.route s, ps with
    | first :: _, _ => Some (latitude first, longitude first)
    | [], np :: _ =>
        Some (MapScreen.coordsLatitude (snd np), MapScreen.coordsLongitude (snd np))
    | [], [] => None
    end.
Proof.
  unfold MapScreen.startMarker.
  destruct (onPositions_route captured mapReady ps s) as (Hr & _ & _).
  rewrite Hr. destruct (MapScreen.route s) as [| first l]; [| reflexivity].
  destruct ps as [| np ps]; reflexivity.
Qed.

(** X18: [startTracking] registers a watch exactly when the permission of
    the platform is granted; without it the screen is left as it was and the
    only effect is the alert that offers the settings. *)
Theorem startTracking_needs_permission
  (os : MapScreen.platform)
  (request : MapScreen.permission -> MapScreen.permissionStatus)
  (id : nat) (s : MapScreen.Screen) :
  let wanted :=
    match os with
    | MapScreen.Android => MapScreen.ANDROID_ACCESS_FINE_LOCATION
    | MapScreen.OtherOS => MapScreen.IOS_LOCATION_WHEN_IN_USE
    end in
  (In (MapScreen.WatchPosition id) (snd (MapScreen.startTracking os request id s))
   <-> request wanted = MapScreen.GRANTED)
  /\ (request wanted <> MapScreen.GRANTED ->
      MapScreen.startTracking os request id s
      = (s, [MapScreen.ShowAlert "Permission required"%string
               (Some "Enable location in Settings."%string)
               ["Cancel"%string; "Open Settings"%string]])).
Proof.
  unfold MapScreen.startTracking, MapScreen.requestPermission. cbv zeta.
  destruct os; 
    [destruct (request MapScreen.ANDROID_ACCESS_FINE_LOCATION)
    | destruct (request MapScreen.IOS_LOCATION_WHEN_IN_USE)];
    simpl; (split; [split |]); try congruence; try tauto; try reflexivity.
  - intros [H | []]. discriminate H.
  - intros [H | []]. discriminate H.
Qed.

Lemma startTracking_needs_permission_witness :
  MapScreen.startTracking MapScreen.Android (fun _ => MapScreen.NotGranted) 7%nat
    MapScreen.initialScreen
  = (MapScreen.initialScreen,
     [MapScreen.ShowAlert "Permission required"%string
        (Some "Enable location in Settings."%string)
        ["Cancel"%string; "Open Settings"%string]]).
Proof.
  apply (startTracking_needs_permission MapScreen.Android
           (fun _ => MapScreen.NotGranted) 7%nat MapScreen.initialScreen).
  discriminate.
Defined.

(** X19: after a location error the recording has ended: the alert with
    the message is shown, the watch is cleared, the button reads "Start"
    again and the route stays on the map; the next Start, once permitted,
    begins with an empty route. *)
Theorem location_error_ends_recording
  (message : string) (s : MapScreen.Screen)
  (os : MapScreen.platform)
  (request : MapScreen.permission -> MapScreen.permissionStatus) (id : nat) :
  let s' := fst (MapScreen.onLocationError message s) in
  MapScreen.buttonTitle s' = "Start"%string
  /\ MapScreen.watchId s' = None
  /\ MapScreen.polyline s' = MapScreen.polyline s
  /\ snd (MapScreen.onLocationError message s)
     = MapScreen.ShowAlert "Location error"%string (Some message) []
       :: match MapScreen.watchId s with
          | Some w => [MapScreen.ClearWatch w]
          | None => []
          end
  /\ (MapScreen.requestPermission os request = true ->
      MapScreen.route (fst (MapScreen.startTracking os request id s')) = []).
Proof.
  unfold MapScreen.onLocationError, MapScreen.stopTracking, MapScreen.buttonTitle,
    MapScreen.polyline, MapScreen.startTracking.
  destruct (MapScreen.watchId s); cbv zeta; simpl; repeat split;
    intros ->; reflexivity.
Qed.

Lemma location_error_ends_recording_witness :
  MapScreen.route
    (fst (MapScreen.startTracking MapScreen.Android (fun _ => MapScreen.GRANTED) 8%nat
            (fst (MapScreen.onLocationError "timeout"%string
                    {| MapScreen.region := MapScreen.INITIAL_REGION;
                       MapScreen.route := [mkPoint 51 0 0];
                       MapScreen.tracking := true;
                       MapScreen.watchId := Some 7%nat |}))))
  = [].
Proof.
  apply (location_error_ends_recording "timeout"%string
           {| MapScreen.region := MapScreen.INITIAL_REGION;
              MapScreen.route := [mkPoint 51 0 0];
              MapScreen.tracking := true;
              MapScreen.watchId := Some 7%nat |}
           MapScreen.Android (fun _ => MapScreen.GRANTED) 8%nat).
  reflexivity.
Defined.

(** ** isStationary with other thresholds *)

(** X20: for any positive pause threshold and any speed threshold,
    [isStationary] answers, and answers true exactly when the duration has
    reached the pause threshold and the distance is below the speed
    threshold times the duration. *)
Theorem isStationary_thresholds (d t speedThreshold pauseThresholdSec : R) :
  0 < pauseThresholdSec ->
  (exists b, isStationary d t speedThreshold pauseThresholdSec = Ok b)
  /\ (isStationary d t speedThreshold pauseThresholdSec = Ok true
      <-> pauseThresholdSec <= t /\ d < speedThreshold * t).
Proof.
  intros Hp. split; [now apply isStationary_total |].
  destruct (Rlt_dec t pauseThresholdSec) as [Hlt | Hge].
  - rewrite isStationary_short by exact Hlt. split; [discriminate | lra].
  - rewrite isStationary_long by lra.
    assert (Ht : 0 < t) by lra.
    assert (Hq : d / t * t = d) by (field; lra).
    split.
    + intros H. injection H as H. apply ltb_spec in H. split; [lra |].
      assert (Hmul : d / t * t < speedThreshold * t)
        by (apply Rmult_lt_compat_r; assumption).
      rewrite Hq in Hmul. exact Hmul.
    + intros [_ H]. f_equal. apply ltb_spec.
      apply Rmult_lt_reg_r with t; [exact Ht |]. rewrite Hq. lra.
Qed.

Lemma isStationary_thresholds_witness :
  isStationary 2 10 (1 / 2) 8 = Ok true.
Proof.
  apply (isStationary_thresholds 2 10 (1 / 2) 8); lra.
Defined.

(** ** A track of short segments that completes a kilometre *)

Lemma shortTrack_dist1 :
  743 < segmentDist (mkPoint 0 0 0) (mkPoint (7 / 1000) 0 300000) < 992.
Proof.
  unfold segmentDist; cbn [latitude longitude].
  rewrite haversine_meridian by lra.
  unfold EARTH_RADIUS, toRadians. pose proof PI_bounds. lra.
Qed.

Lemma shortTrack_dist2 :
  743 < segmentDist (mkPoint (7 / 1000) 0 300000) (mkPoint (14 / 1000) 0 600000) < 992.
Proof.
  unfold segmentDist; cbn [latitude longitude].
  rewrite haversine_meridian by lra.
  unfold EARTH_RADIUS, toRadians. pose proof PI_bounds. lra.
Qed.

(** On [shortTrack] the second segment completes the first kilometre. *)
Lemma shortTrack_run :
  exists st, calculateStats shortTrack = Ok st /\ map km (splits st) = [1%Z].
Proof.
  set (p0 := mkPoint 0 0 0).
  set (p1 := mkPoint (7 / 1000) 0 300000).
  set (p2 := mkPoint (14 / 1000) 0 600000).
  pose proof shortTrack_dist1 as Hd1. fold p0 p1 in Hd1.
  pose proof shortTrack_dist2 as Hd2. fold p1 p2 in Hd2.
  assert (Hm1 : isStationary_default (segmentDist p0 p1) (segmentDeltaT p0 p1)
                = Ok false)
    by (apply moving_when_fast; unfold segmentDeltaT; cbn [timestamp p0 p1]; lra).
  assert (Hk1 : Num.floor ((cumDist (initAcc p0) + segmentDist p0 p1) / 1000) = 0%Z)
    by (apply floor_unique; cbn [initAcc cumDist]; simpl IZR; lra).
  destruct (segment_step p0 p1 (initAcc p0)) as (s1 & Hs1 & Hstep).
  { rewrite <- (initAcc_kmInv p0). lia. }
  pose proof (step_kmInv _ _ _ _ (initAcc_kmInv p0) Hstep) as Hinv1.
  assert (H1 : cumDist s1 = segmentDist p0 p1 /\ lastSplitKm s1 = 0%Z
               /\ splitsArr s1 = []).
  { destruct Hstep as [E _ | _ _ _ Hc Hl Hsp _ _ _ | _ Hlt _ _ _ _ _ _ _ _].
    - rewrite Hm1 in E. discriminate E.
    - rewrite Hc, Hl, Hsp. cbn [initAcc cumDist lastSplitKm splitsArr].
      repeat split. lra.
    - rewrite Hk1 in Hlt. cbn [initAcc lastSplitKm] in Hlt. lia. }
  destruct H1 as (Hc1 & Hl1 & Hsp1).
  destruct (segment_cross p1 p2 s1) as (s2 & Hs2 & _ & _ & _ & Hm2).
  { exact Hinv1. }
  { apply moving_when_fast; unfold segmentDeltaT; cbn [timestamp p1 p2]; lra. }
  { rewrite Hl1. apply Z.lt_le_trans with 1%Z; [reflexivity |].
    apply floor_ge. rewrite Hc1. simpl IZR. lra. }
  rewrite Hsp1, Hl1 in Hm2.
  destruct (setState_Ok shortTrack p0 s2) as (st & Hst & _ & _ & _ & _ & Hsp & _).
  exists st. split.
  - unfold shortTrack. fold p0 p1 p2. rewrite calculateStats_cons.
    unfold foldPath, segments. rewrite Hs1. simpl bind. rewrite Hs2. simpl bind.
    exact Hst.
  - rewrite Hsp, Hm2. reflexivity.
Qed.

Lemma short_segments_numbered_witness :
  exists st,
    calculateStats shortTrack = Ok st
    /\ numberedFromOne (map km (splits st))
    /\ map km (splits st) = [1%Z].
Proof.
  destruct (short_segments_numbered (mkPoint 0 0 0)
              [mkPoint (7 / 1000) 0 300000; mkPoint (14 / 1000) 0 600000])
    as (st & Hst & Hnum).
  - pose proof shortTrack_dist1. pose proof shortTrack_dist2.
    simpl. repeat split; lra.
  - destruct shortTrack_run as (st' & Hst' & Hkm).
    change (calculateStats shortTrack = Ok st) in Hst.
    rewrite Hst in Hst'. injection Hst' as <-.
    exists st. auto.
Defined.
